(** * Spackler: graceful termination of tracked goroutines

    A shallow embedding of [spackler.go] (package [spackler]) together with
    the part of the Go runtime it is written against: [sync.Once],
    [sync.WaitGroup], channels, [select], [go], [defer], panics,
    [time.NewTicker] and [signal.Notify].

    Go code is written in a small statement monad [proc]; goroutines are
    stepped one atomic runtime operation at a time by [gstep], and a pool of
    goroutines by [step]. *)

From Stdlib Require Import ZArith Lia Bool.
From stdpp Require Import base option list.

Open Scope Z_scope.

(** ** Values *)

(** Pointers: [nil] or the index of an object in the store of its type. *)
Inductive ref := nil | addr (a : nat).

Inductive Signal := SIGINT | SIGTERM | SIGOTHER (n : nat).

(** [var ErrStopping = errors.New("spackler: stopping")] is the package's
    only error value; a Go [error] is [None] (nil) or [Some ErrStopping]. *)
Inductive error := ErrStopping.

(** [type Caddy struct] *)
Record Caddy := mkCaddy {
  o : ref;              (* *sync.Once *)
  wg : ref;             (* *sync.WaitGroup *)
  stopChan : ref;       (* chan bool *)
  sigChan : ref;        (* chan os.Signal *)
  notifyDefault : ref;  (* *bool *)
  isTopLevel : bool
}.

(** [Caddy{}], the zero value. *)
Definition zeroCaddy : Caddy := mkCaddy nil nil nil nil nil false.

Definition set_o (v : ref) (c : Caddy) : Caddy :=
  mkCaddy v (wg c) (stopChan c) (sigChan c) (notifyDefault c) (isTopLevel c).
Definition set_wg (v : ref) (c : Caddy) : Caddy :=
  mkCaddy (o c) v (stopChan c) (sigChan c) (notifyDefault c) (isTopLevel c).
Definition set_stopChan (v : ref) (c : Caddy) : Caddy :=
  mkCaddy (o c) (wg c) v (sigChan c) (notifyDefault c) (isTopLevel c).
Definition set_sigChan (v : ref) (c : Caddy) : Caddy :=
  mkCaddy (o c) (wg c) (stopChan c) v (notifyDefault c) (isTopLevel c).
Definition set_notifyDefault (v : ref) (c : Caddy) : Caddy :=
  mkCaddy (o c) (wg c) (stopChan c) (sigChan c) v (isTopLevel c).
Definition set_isTopLevel (v : bool) (c : Caddy) : Caddy :=
  mkCaddy (o c) (wg c) (stopChan c) (sigChan c) (notifyDefault c) v.

(** What a function call hands back to its caller. *)
Inductive retval :=
| VVoid
| VErr (e : option error)
| VRef (r : ref).

Definition as_ref (v : retval) : ref :=
  match v with VRef r => r | _ => nil end.

(** ** Statements *)

Inductive proc : Type :=
(* how a statement ends *)
| Skip                                        (* falls through *)
| Return (v : retval)                         (* return v *)
| Panic
(* control *)
| Seq (p q : proc)                            (* p; q *)
| Loop (body : proc)                          (* for { body } *)
| Call (body : proc) (k : retval -> proc)     (* x := body(); k x *)
| Defer (d : proc) (rest : proc)              (* defer d(); rest *)
| GoStmt (body : proc)                        (* go func() { body }() *)
(* sync.Once *)
| NewOnce (k : ref -> proc)                   (* &sync.Once{} *)
| OnceDo (once : ref) (body : proc)           (* once.Do(func() { body }) *)
| OnceBody (a : nat) (body : proc)            (* inside Do: the running body *)
(* sync.WaitGroup *)
| NewWaitGroup (k : ref -> proc)              (* &sync.WaitGroup{} *)
| WgAdd (w : ref) (delta : Z)                 (* w.Add(delta) *)
| WgWait (w : ref)                            (* w.Wait() *)
(* channels *)
| MakeChan (k : ref -> proc)                  (* make(chan T) *)
| Close (ch : ref)                            (* close(ch) *)
| Send (ch : ref) (v : Signal)                (* ch <- v *)
| Recv (ch : ref)                             (* <-ch *)
| Select2 (ch1 ch2 : ref) (p1 p2 : proc)      (* select { case <-ch1: p1; case <-ch2: p2 } *)
| Poll (ch : ref) (p d : proc)                (* select { case <-ch: p; default: d } *)
(* time, os/signal *)
| NewTicker (d : Z) (k : ref -> proc)         (* time.NewTicker(d).C *)
| Notify (ch : ref) (sigs : list Signal)      (* signal.Notify(ch, sigs...) *)
(* memory *)
| NewBool (b : bool) (k : ref -> proc)        (* &b *)
| LoadBool (r : ref) (k : bool -> proc)       (* *r *)
| AllocCaddy (v : Caddy) (k : ref -> proc)    (* the &Caddy{...} a constructor built *)
| Load (c : ref) (k : Caddy -> proc).         (* read of *c *)

Declare Scope proc_scope.
Delimit Scope proc_scope with P.
Bind Scope proc_scope with proc.

Notation "p ;; q" := (Seq p q)
  (at level 100, q at level 200, right associativity) : proc_scope.
Notation "x <- c .[ f ] ; k" := (Load c (fun s => let x := f s in k%P))
  (at level 100, c at level 9, f at level 9, k at level 200,
   right associativity) : proc_scope.

(** [w.Done()] is [w.Add(-1)]. *)
Definition WgDone (w : ref) : proc := WgAdd w (-1).

(** A call whose result is dropped. *)
Definition call (body : proc) : proc := Call body (fun _ => Skip).

(** ** The heap *)

Inductive once_state := OnceFresh | OnceRunning | OnceDone.

(** A channel. Those made by [make(chan T)] are unbuffered and are open or
    closed; the channel of a [time.Ticker] is never closed and holds at most
    one pending tick, put there by the runtime. *)
Inductive chan :=
| Unbuffered (closed : bool)
| TickerC (pending : bool).

Record heap := mkHeap {
  onces : list once_state;           (* sync.Once values *)
  wgs : list Z;                      (* sync.WaitGroup counters *)
  chans : list chan;
  bools : list bool;
  caddies : list Caddy;
  notified : list (ref * list Signal)  (* signal.Notify registrations *)
}.

Definition empty_heap : heap := mkHeap [] [] [] [] [] [].

Definition upd_onces (f : list once_state -> list once_state) (h : heap) :=
  mkHeap (f (onces h)) (wgs h) (chans h) (bools h) (caddies h) (notified h).
Definition upd_wgs (f : list Z -> list Z) (h : heap) :=
  mkHeap (onces h) (f (wgs h)) (chans h) (bools h) (caddies h) (notified h).
Definition upd_chans (f : list chan -> list chan) (h : heap) :=
  mkHeap (onces h) (wgs h) (f (chans h)) (bools h) (caddies h) (notified h).
Definition upd_bools (f : list bool -> list bool) (h : heap) :=
  mkHeap (onces h) (wgs h) (chans h) (f (bools h)) (caddies h) (notified h).
Definition upd_caddies (f : list Caddy -> list Caddy) (h : heap) :=
  mkHeap (onces h) (wgs h) (chans h) (bools h) (f (caddies h)) (notified h).
Definition upd_notified
    (f : list (ref * list Signal) -> list (ref * list Signal)) (h : heap) :=
  mkHeap (onces h) (wgs h) (chans h) (bools h) (caddies h) (f (notified h)).

(** A receive can complete on its own when the channel is closed or holds a
    pending tick. *)
Definition ready (c : chan) : bool :=
  match c with
  | Unbuffered closed => closed
  | TickerC pending => pending
  end.

(** Taking the value: a pending tick is consumed, a closed channel stays. *)
Definition take (c : chan) : chan :=
  match c with
  | Unbuffered closed => Unbuffered closed
  | TickerC _ => TickerC false
  end.

Definition chan_ready (h : heap) (ch : ref) : bool :=
  match ch with
  | nil => false                       (* a nil channel is never ready *)
  | addr a => match chans h !! a with Some c => ready c | None => false end
  end.

Definition chan_take (h : heap) (ch : ref) : heap :=
  match ch with
  | nil => h
  | addr a => upd_chans (alter take a) h
  end.

(** ** One step of one goroutine *)

(** What the scheduler lets the goroutine do: a step of its own ([b] settles
    a [select] that has several ready cases), or its half of a hand-over on
    the unbuffered channel [a]. *)
Inductive act :=
| ATau (b : bool)
| ASend (a : nat)
| ARecv (a : nat).

Inductive completion := CSkip | CReturn (v : retval) | CPanic.

Definition done_of (p : proc) : option completion :=
  match p with
  | Skip => Some CSkip
  | Return v => Some (CReturn v)
  | Panic => Some CPanic
  | _ => None
  end.

Definition result := option (proc * heap * list proc).

Definition tau (a : act) (r : result) : result :=
  match a with ATau _ => r | _ => None end.

Definition is_addr (ch : ref) (a : nat) : bool :=
  match ch with addr b => Nat.eqb a b | nil => false end.

Fixpoint gstep (a : act) (h : heap) (p : proc) {struct p} : result :=
  match p with
  | Skip | Return _ | Panic => None
  | Seq p1 q =>
      match done_of p1 with
      | Some CSkip => tau a (Some (q, h, []))
      | Some (CReturn v) => tau a (Some (Return v, h, []))
      | Some CPanic => tau a (Some (Panic, h, []))
      | None =>
          match gstep a h p1 with
          | Some (p1', h', sp) => Some (Seq p1' q, h', sp)
          | None => None
          end
      end
  | Loop body => tau a (Some (Seq body (Loop body), h, []))
  | Call body k =>
      match done_of body with
      | Some CSkip => tau a (Some (k VVoid, h, []))
      | Some (CReturn v) => tau a (Some (k v, h, []))
      | Some CPanic => tau a (Some (Panic, h, []))
      | None =>
          match gstep a h body with
          | Some (body', h', sp) => Some (Call body' k, h', sp)
          | None => None
          end
      end
  | Defer d rest =>
      (* the deferred call runs when the function returns and when it panics *)
      match done_of rest with
      | Some CSkip => tau a (Some (Seq (call d) (Return VVoid), h, []))
      | Some (CReturn v) => tau a (Some (Seq (call d) (Return v), h, []))
      | Some CPanic => tau a (Some (Seq (call d) Panic, h, []))
      | None =>
          match gstep a h rest with
          | Some (rest', h', sp) => Some (Defer d rest', h', sp)
          | None => None
          end
      end
  | GoStmt body => tau a (Some (Skip, h, [body]))
  | NewOnce k =>
      tau a (Some (k (addr (length (onces h))),
                   upd_onces (fun l => l ++ [OnceFresh]) h, []))
  | OnceDo once body =>
      match once with
      | nil => tau a (Some (Panic, h, []))
      | addr n =>
          match onces h !! n with
          | Some OnceFresh =>
              tau a (Some (OnceBody n body,
                           upd_onces (fun l => <[n:=OnceRunning]> l) h, []))
          | Some OnceRunning => None     (* waits for the running body *)
          | Some OnceDone => tau a (Some (Skip, h, []))
          | None => None
          end
      end
  | OnceBody n body =>
      match done_of body with
      | Some CPanic =>
          tau a (Some (Panic, upd_onces (fun l => <[n:=OnceDone]> l) h, []))
      | Some _ =>
          tau a (Some (Skip, upd_onces (fun l => <[n:=OnceDone]> l) h, []))
      | None =>
          match gstep a h body with
          | Some (body', h', sp) => Some (OnceBody n body', h', sp)
          | None => None
          end
      end
  | NewWaitGroup k =>
      tau a (Some (k (addr (length (wgs h))),
                   upd_wgs (fun l => l ++ [0]) h, []))
  | WgAdd w delta =>
      match w with
      | nil => tau a (Some (Panic, h, []))
      | addr n =>
          match wgs h !! n with
          | Some v =>
              (* the counter is updated first; a negative counter panics *)
              let h' := upd_wgs (fun l => <[n:=v + delta]> l) h in
              tau a (Some (if v + delta <? 0 then Panic else Skip, h', []))
          | None => None
          end
      end
  | WgWait w =>
      match w with
      | nil => tau a (Some (Panic, h, []))
      | addr n =>
          match wgs h !! n with
          | Some v => if v =? 0 then tau a (Some (Skip, h, [])) else None
          | None => None
          end
      end
  | MakeChan k =>
      tau a (Some (k (addr (length (chans h))),
                   upd_chans (fun l => l ++ [Unbuffered false]) h, []))
  | Close ch =>
      match ch with
      | nil => tau a (Some (Panic, h, []))
      | addr n =>
          match chans h !! n with
          | Some (Unbuffered true) => tau a (Some (Panic, h, []))
          | Some (Unbuffered false) =>
              tau a (Some (Skip, upd_chans (fun l => <[n:=Unbuffered true]> l) h, []))
          | _ => None
          end
      end
  | Send ch v =>
      match ch with
      | nil => None                      (* blocks forever *)
      | addr n =>
          match chans h !! n with
          | Some (Unbuffered closed) =>
              match a with
              | ATau _ => if closed then Some (Panic, h, []) else None
              | ASend m =>
                  if Nat.eqb m n && negb closed then Some (Skip, h, []) else None
              | ARecv _ => None
              end
          | _ => None
          end
      end
  | Recv ch =>
      match a with
      | ATau _ => if chan_ready h ch then Some (Skip, chan_take h ch, []) else None
      | ARecv m => if is_addr ch m then Some (Skip, h, []) else None
      | ASend _ => None
      end
  | Select2 ch1 ch2 p1 p2 =>
      match a with
      | ATau b =>
          match chan_ready h ch1, chan_ready h ch2 with
          | true, true =>
              if b then Some (p1, chan_take h ch1, [])
              else Some (p2, chan_take h ch2, [])
          | true, false => Some (p1, chan_take h ch1, [])
          | false, true => Some (p2, chan_take h ch2, [])
          | false, false => None
          end
      | ARecv m =>
          if is_addr ch1 m then Some (p1, h, [])
          else if is_addr ch2 m then Some (p2, h, [])
          else None
      | ASend _ => None
      end
  | Poll ch p d =>
      match a with
      | ATau _ =>
          if chan_ready h ch then Some (p, chan_take h ch, [])
          else Some (d, h, [])
      | ARecv m => if is_addr ch m then Some (p, h, []) else None
      | ASend _ => None
      end
  | NewTicker d k =>
      (* time.NewTicker panics on a non-positive interval *)
      if d <=? 0 then tau a (Some (Panic, h, []))
      else tau a (Some (k (addr (length (chans h))),
                        upd_chans (fun l => l ++ [TickerC false]) h, []))
  | Notify ch sigs =>
      match ch with
      | nil => tau a (Some (Panic, h, []))
      | addr _ => tau a (Some (Skip, upd_notified (fun l => l ++ [(ch, sigs)]) h, []))
      end
  | NewBool b k =>
      tau a (Some (k (addr (length (bools h))),
                   upd_bools (fun l => l ++ [b]) h, []))
  | LoadBool r k =>
      match r with
      | nil => tau a (Some (Panic, h, []))
      | addr n =>
          match bools h !! n with
          | Some b => tau a (Some (k b, h, []))
          | None => None
          end
      end
  | AllocCaddy v k =>
      tau a (Some (k (addr (length (caddies h))),
                   upd_caddies (fun l => l ++ [v]) h, []))
  | Load c k =>
      match c with
      | nil => tau a (Some (Panic, h, []))
      | addr n =>
          match caddies h !! n with
          | Some s => tau a (Some (k s, h, []))
          | None => None
          end
      end
  end.

(** ** spackler.go *)

Module Spackler.

(** [func NewCaddy(stopOnOS bool) *Caddy]. The struct is filled in field by
    field and enters the store when the constructor hands it out. *)
Definition NewCaddy (stopOnOS : bool) : proc :=
  let c := zeroCaddy in                                   (* c := &Caddy{} *)
  NewOnce (fun r => let c := set_o r c in                 (* c.o = &sync.Once{} *)
  NewWaitGroup (fun r => let c := set_wg r c in           (* c.wg = &sync.WaitGroup{} *)
  MakeChan (fun r => let c := set_stopChan r c in         (* c.stopChan = make(chan bool) *)
  MakeChan (fun r => let c := set_sigChan r c in          (* c.sigChan = make(chan os.Signal) *)
  NewBool stopOnOS (fun r => let c := set_notifyDefault r c in  (* c.notifyDefault = &stopOnOS *)
  let c := set_isTopLevel true c in                       (* c.isTopLevel = true *)
  AllocCaddy c (fun p => Return (VRef p))))))).           (* return c *)

(** [func (c *Caddy) copy() *Caddy] *)
Definition copy (c : ref) : proc :=
  let c2 := zeroCaddy in                                  (* c2 := &Caddy{} *)
  (v <- c.[o]; let c2 := set_o v c2 in                    (* c2.o = c.o *)
   v <- c.[wg]; let c2 := set_wg v c2 in                  (* c2.wg = c.wg *)
   v <- c.[stopChan]; let c2 := set_stopChan v c2 in      (* c2.stopChan = c.stopChan *)
   v <- c.[sigChan]; let c2 := set_sigChan v c2 in        (* c2.sigChan = c.sigChan *)
   v <- c.[notifyDefault]; let c2 := set_notifyDefault v c2 in
   let c2 := set_isTopLevel false c2 in                   (* c2.isTopLevel = false *)
   AllocCaddy c2 (fun p => Return (VRef p)))%P.           (* return c2 *)

(** The goroutine [listen] starts: it waits on the signal channel and then
    broadcasts on the stop channel. *)
Definition listener (c : ref) : proc :=
  (w <- c.[wg]; Defer (WgDone w) (                        (* defer c.wg.Done() *)
     sc <- c.[sigChan]; Recv sc ;;                        (* <-c.sigChan *)
     st <- c.[stopChan]; Close st))%P.                    (* close(c.stopChan) *)

(** [func (c *Caddy) listen()] *)
Definition listen (c : ref) : proc :=
  (once <- c.[o];
   OnceDo once (                                          (* c.o.Do(func() { *)
     nd <- c.[notifyDefault];
     LoadBool nd (fun b =>
     (if b                                                (* if *c.notifyDefault { *)
      then sc <- c.[sigChan]; Notify sc [SIGINT; SIGTERM]
      else Skip) ;;
     (w <- c.[wg]; WgAdd w 1) ;;                          (* c.wg.Add(1) *)
     GoStmt (listener c))))%P.                            (* go func() { ... }() *)

(** The goroutine [Go] starts for [f], handing it the scope [c2]. *)
Definition tracked (c : ref) (f : ref -> proc) (c2 : ref) : proc :=
  (w <- c.[wg]; Defer (WgDone w) (                        (* defer c.wg.Done() *)
     call (f c2)))%P.                                     (* f(c2) *)

(** [func (c *Caddy) Go(f func(caddy *Caddy)) error] *)
Definition Go (c : ref) (f : ref -> proc) : proc :=
  let launch (c2 : ref) :=
    ((w <- c.[wg]; WgAdd w 1) ;;                          (* c.wg.Add(1) *)
     GoStmt (tracked c f c2) ;;                           (* go func() { ... }() *)
     Return (VErr None))%P in                             (* return nil *)
  (call (listen c) ;;                                     (* c.listen() *)
   top <- c.[isTopLevel];                                 (* c2 := c *)
   if top then                                            (* if c.isTopLevel { *)
     (st <- c.[stopChan];
      Poll st                                             (* select { *)
        (Return (VErr (Some ErrStopping)))                (* case <-c.stopChan: return ErrStopping *)
        Skip) ;;                                          (* default: } *)
     Call (copy c) (fun v => launch (as_ref v))           (* c2 = c.copy() *)
   else launch c)%P.

(** [func (c *Caddy) Wait()] *)
Definition Wait (c : ref) : proc :=
  (w <- c.[wg]; WgWait w)%P.

(** [func (c *Caddy) Stopping() (ch <-chan bool)] *)
Definition Stopping (c : ref) : proc :=
  (ch <- c.[stopChan]; Return (VRef ch))%P.

(** [func (c *Caddy) Stop()] *)
Definition Stop (c : ref) : proc :=
  (ch <- c.[sigChan]; Send ch SIGINT)%P.                  (* c.sigChan <- syscall.SIGINT *)

(** The [case <-t:] branch of the [select] in [Looper]. *)
Definition looper_tick (c : ref) (f : proc) : proc :=
  ((st <- c.[stopChan];                                   (* select { *)
    Poll st (Return VVoid) Skip) ;;                       (* case <-c.stopChan: return; default: } *)
   call f)%P.                                             (* f() *)

(** The body of the [for] loop of [Looper], over the tick channel [t]. *)
Definition looper_body (c : ref) (t : ref) (f : proc) : proc :=
  (st <- c.[stopChan];
   Select2 t st                                           (* select { *)
     (looper_tick c f)                                    (* case <-t: ... *)
     (Return VVoid))%P.                                   (* case <-c.stopChan: return } *)

Definition looper_loop (c : ref) (t : ref) (f : proc) : proc :=
  Loop (looper_body c t f).                               (* for { ... } *)

(** [func (c *Caddy) Looper(interval time.Duration, runImmediately bool, f func())] *)
Definition Looper (c : ref) (interval : Z) (runImmediately : bool) (f : proc) : proc :=
  let rest (t : ref) :=
    ((if runImmediately then call f else Skip) ;;         (* if runImmediately { f() } *)
     looper_loop c t f)%P in
  (call (listen c) ;;                                     (* c.listen() *)
   if 0 =? interval then                                  (* if 0 == interval { *)
     MakeChan (fun ch => Close ch ;; rest ch)             (*   ch := make(..); close(ch); t = ch *)
   else
     NewTicker interval rest)%P.                          (* t = time.NewTicker(interval).C *)

(** [func (c *Caddy) SigChan() (ch chan<- os.Signal)] *)
Definition SigChan (c : ref) : proc :=
  (ch <- c.[sigChan]; Return (VRef ch))%P.

End Spackler.

(** ** Goroutine pools *)

Record state := mkState {
  hp : heap;
  pool : list proc
}.

(** Scheduler moves: goroutine [i] steps on its own; goroutine [i] hands a
    value to goroutine [j] over the unbuffered channel [a]; the runtime timer
    puts a tick into the ticker channel [a]. *)
Inductive label :=
| LTau (i : nat) (b : bool)
| LComm (i j : nat) (a : nat)
| LTick (a : nat).

Definition step (l : label) (s : state) : option state :=
  match l with
  | LTau i b =>
      match pool s !! i with
      | Some p =>
          match gstep (ATau b) (hp s) p with
          | Some (p', h', sp) => Some (mkState h' (<[i:=p']> (pool s) ++ sp))
          | None => None
          end
      | None => None
      end
  | LComm i j a =>
      if Nat.eqb i j then None else
      match pool s !! i, pool s !! j with
      | Some p, Some q =>
          match gstep (ASend a) (hp s) p, gstep (ARecv a) (hp s) q with
          | Some (p', _, _), Some (q', _, _) =>
              Some (mkState (hp s) (<[j:=q']> (<[i:=p']> (pool s))))
          | _, _ => None
          end
      | _, _ => None
      end
  | LTick a =>
      match chans (hp s) !! a with
      | Some (TickerC _) =>
          Some (mkState (upd_chans (fun l => <[a:=TickerC true]> l) (hp s)) (pool s))
      | _ => None
      end
  end.

Fixpoint run (ls : list label) (s : state) : option state :=
  match ls with
  | [] => Some s
  | l :: ls' =>
      match step l s with
      | Some s' => run ls' s'
      | None => None
      end
  end.

(** [n] steps of one goroutine left alone, with the goroutines it started;
    [b] is what every [select] with several ready cases picks. *)
Fixpoint solo (b : bool) (n : nat) (h : heap) (p : proc)
    : option (heap * proc * list proc) :=
  match n with
  | O => Some (h, p, [])
  | S n' =>
      match gstep (ATau b) h p with
      | Some (p', h', sp) =>
          match solo b n' h' p' with
          | Some (h'', p'', sp') => Some (h'', p'', sp ++ sp')
          | None => None
          end
      | None => None
      end
  end.

(** ** Scopes in a heap *)

(** Everything a [*Caddy] at address [c] points to. *)
Record view := mkView {
  v_caddy : Caddy;
  v_o : nat;
  v_wg : nat;
  v_stop : nat;
  v_sig : nat;
  v_nd : nat;
  v_once : once_state;
  v_count : Z;
  v_stopped : bool;     (* is stopChan closed? *)
  v_sigclosed : bool;   (* is sigChan closed? *)
  v_notify : bool
}.

Definition view_of (h : heap) (c : nat) : option view :=
  match caddies h !! c with
  | Some s =>
      match o s, wg s, stopChan s, sigChan s, notifyDefault s with
      | addr no, addr nw, addr nst, addr nsg, addr nn =>
          match onces h !! no, wgs h !! nw, chans h !! nst, chans h !! nsg,
                bools h !! nn with
          | Some st, Some v, Some (Unbuffered cst), Some (Unbuffered csg), Some b =>
              Some (mkView s no nw nst nsg nn st v cst csg b)
          | _, _, _, _, _ => None
          end
      | _, _, _, _, _ => None
      end
  | None => None
  end.

(** What [listen] leaves behind: nothing once the [sync.Once] is used up,
    and otherwise the registration for signals (when asked for), one more on
    the wait group, and the [sync.Once] used up. *)
Definition listen_heap (h : heap) (w : view) : heap :=
  match v_once w with
  | OnceFresh =>
      mkHeap (<[v_o w:=OnceDone]> (onces h))
             (<[v_wg w:=v_count w + 1]> (wgs h))
             (chans h) (bools h) (caddies h)
             (notified h ++
                if v_notify w then [(addr (v_sig w), [SIGINT; SIGTERM])] else [])
  | _ => h
  end.

Definition listen_pool (c : nat) (w : view) : list proc :=
  match v_once w with
  | OnceFresh => [Spackler.listener (addr c)]
  | _ => []
  end.

(** The wait group counter after [listen]. *)
Definition listen_count (w : view) : Z :=
  match v_once w with
  | OnceFresh => v_count w + 1
  | _ => v_count w
  end.

(** The struct [copy] builds from [s]. *)
Definition minted (s : Caddy) : Caddy :=
  mkCaddy (o s) (wg s) (stopChan s) (sigChan s) (notifyDefault s) false.

(** The heap after [Go] started a task: [listen] ran, the structs in [new]
    entered the store, and the counter went up by one. *)
Definition launch_heap (h : heap) (w : view) (new : list Caddy) : heap :=
  upd_wgs (fun l => <[v_wg w:=listen_count w + 1]> l)
    (upd_caddies (fun l => l ++ new) (listen_heap h w)).

(** ** Sample heaps *)

(** After [NewCaddy(false)] on an empty heap. *)
Definition heap_new : heap :=
  mkHeap [OnceFresh] [0] [Unbuffered false; Unbuffered false] [false]
         [mkCaddy (addr 0) (addr 0) (addr 0) (addr 1) (addr 0) true] [].

(** After one [Go] on the root scope whose task has finished: the listener
    waits, the task's scope is at address 1. *)
Definition heap_running : heap :=
  mkHeap [OnceDone] [1] [Unbuffered false; Unbuffered false] [false]
         [mkCaddy (addr 0) (addr 0) (addr 0) (addr 1) (addr 0) true;
          mkCaddy (addr 0) (addr 0) (addr 0) (addr 1) (addr 0) false] [].

(** After [Stop]: the listener has fired the broadcast and is gone. *)
Definition heap_stopped : heap :=
  mkHeap [OnceDone] [0] [Unbuffered true; Unbuffered false] [false]
         [mkCaddy (addr 0) (addr 0) (addr 0) (addr 1) (addr 0) true;
          mkCaddy (addr 0) (addr 0) (addr 0) (addr 1) (addr 0) false] [].

Definition view_new : view :=
  mkView (mkCaddy (addr 0) (addr 0) (addr 0) (addr 1) (addr 0) true)
         0 0 0 1 0 OnceFresh 0 false false false.
Definition view_running_root : view :=
  mkView (mkCaddy (addr 0) (addr 0) (addr 0) (addr 1) (addr 0) true)
         0 0 0 1 0 OnceDone 1 false false false.
Definition view_stopped_root : view :=
  mkView (mkCaddy (addr 0) (addr 0) (addr 0) (addr 1) (addr 0) true)
         0 0 0 1 0 OnceDone 0 true false false.
Definition view_stopped_task : view :=
  mkView (mkCaddy (addr 0) (addr 0) (addr 0) (addr 1) (addr 0) false)
         0 0 0 1 0 OnceDone 0 true false false.

(** ** The listener goroutine, step by step *)

(** The listener blocked in [<-c.sigChan]. *)
Definition listener_waiting (c : nat) (w : view) : proc :=
  Defer (WgDone (addr (v_wg w)))
    (Recv (addr (v_sig w)) ;; Load (addr c) (fun s => Close (stopChan s)))%P.

(** The listener once the receive has completed. *)
Definition listener_fired (c : nat) (w : view) : proc :=
  Defer (WgDone (addr (v_wg w)))
    (Skip ;; Load (addr c) (fun s => Close (stopChan s)))%P.

(** The heap once the listener has finished: the stop channel is closed and
    the listener no longer counts. *)
Definition fired_heap (h : heap) (w : view) : heap :=
  upd_wgs (fun l => <[v_wg w:=v_count w - 1]> l)
    (upd_chans (fun l => <[v_stop w:=Unbuffered true]> l) h).

(** A [sync.Once] only moves forward. *)
Definition once_le (a b : once_state) : bool :=
  match a, b with
  | OnceFresh, _ => true
  | OnceRunning, (OnceRunning | OnceDone) => true
  | OnceDone, OnceDone => true
  | _, _ => false
  end.

Definition onces_grow (l l' : list once_state) : Prop :=
  forall a st, l !! a = Some st ->
    exists st', l' !! a = Some st' /\ once_le st st' = true.

(** ** Where a goroutine inside [Looper]'s loop can be *)

(** The one place from which [f] is entered: the inner [select] has taken
    its [default] branch and [f()] is next. *)
Definition looper_gate (c : nat) (t : ref) (f : proc) : proc :=
  ((Skip ;; call f) ;; Spackler.looper_loop (addr c) t f)%P.

(** Every other place: before the inner [select] has let the goroutine
    through, while [f] runs ([x] is what is left of its body), after [f], and
    after the loop. [nst] is the address of the stop channel. *)
Inductive in_loop (c : nat) (nst : nat) (t : ref) (f : proc) : proc -> Prop :=
| il_head : in_loop c nst t f (Spackler.looper_loop (addr c) t f)
| il_body :
    in_loop c nst t f
      (Spackler.looper_body (addr c) t f ;; Spackler.looper_loop (addr c) t f)%P
| il_select :
    in_loop c nst t f
      (Select2 t (addr nst) (Spackler.looper_tick (addr c) f) (Return VVoid) ;;
       Spackler.looper_loop (addr c) t f)%P
| il_tick :
    in_loop c nst t f
      (Spackler.looper_tick (addr c) f ;; Spackler.looper_loop (addr c) t f)%P
| il_poll :
    in_loop c nst t f
      ((Poll (addr nst) (Return VVoid) Skip ;; call f) ;;
       Spackler.looper_loop (addr c) t f)%P
| il_return_inner :
    in_loop c nst t f
      ((Return VVoid ;; call f) ;; Spackler.looper_loop (addr c) t f)%P
| il_return :
    in_loop c nst t f (Return VVoid ;; Spackler.looper_loop (addr c) t f)%P
| il_returned : in_loop c nst t f (Return VVoid)
| il_in_f x :
    in_loop c nst t f
      (Call x (fun _ => Skip) ;; Spackler.looper_loop (addr c) t f)%P
| il_after_f :
    in_loop c nst t f (Skip ;; Spackler.looper_loop (addr c) t f)%P
| il_panicking :
    in_loop c nst t f (Panic ;; Spackler.looper_loop (addr c) t f)%P
| il_panicked : in_loop c nst t f Panic.

(** The goroutine blocked in the outer [select]. *)
Definition looper_at_select (c nst : nat) (t : ref) (f : proc) : proc :=
  (Select2 t (addr nst) (Spackler.looper_tick (addr c) f) (Return VVoid) ;;
   Spackler.looper_loop (addr c) t f)%P.

(** The goroutine at the inner [select], a tick taken. *)
Definition looper_at_poll (c nst : nat) (t : ref) (f : proc) : proc :=
  ((Poll (addr nst) (Return VVoid) Skip ;; call f) ;;
   Spackler.looper_loop (addr c) t f)%P.

(** The heap when [Looper] reaches [if runImmediately]: [listen] ran and the
    tick channel was made, closed for a zero interval. *)
Definition looper_heap (h : heap) (w : view) (interval : Z) : heap :=
  upd_chans
    (fun l => l ++ [if 0 =? interval then Unbuffered true else TickerC false])
    (listen_heap h w).

Definition stays_closed (l l' : list chan) : Prop :=
  forall n, l !! n = Some (Unbuffered true) -> l' !! n = Some (Unbuffered true).

(** A goroutine looping with a zero interval (tick channel at address 2)
    when the broadcast fires. *)
Definition heap_looping_stopped : heap :=
  mkHeap [OnceDone] [1] [Unbuffered true; Unbuffered false; Unbuffered true]
         [false]
         [mkCaddy (addr 0) (addr 0) (addr 0) (addr 1) (addr 0) true;
          mkCaddy (addr 0) (addr 0) (addr 0) (addr 1) (addr 0) false] [].
Definition view_looping_stopped : view :=
  mkView (mkCaddy (addr 0) (addr 0) (addr 0) (addr 1) (addr 0) false)
         0 0 0 1 0 OnceDone 1 true false false.

(** The heap once the signal channel has been closed from outside. *)
Definition sig_closed_heap (h : heap) (w : view) : heap :=
  upd_chans (fun l => <[v_sig w:=Unbuffered true]> l) h.

(** The signal channel was closed from outside, the listener has fired. *)
Definition heap_sig_closed : heap :=
  mkHeap [OnceDone] [0] [Unbuffered true; Unbuffered true] [false]
         [mkCaddy (addr 0) (addr 0) (addr 0) (addr 1) (addr 0) true;
          mkCaddy (addr 0) (addr 0) (addr 0) (addr 1) (addr 0) false] [].
Definition view_sig_closed : view :=
  mkView (mkCaddy (addr 0) (addr 0) (addr 0) (addr 1) (addr 0) true)
         0 0 0 1 0 OnceDone 0 true true false.

(** ** Sample programs *)

(** [c := NewCaddy(false); c.Go(func(_ *Caddy) {}); c.Stop(); c.Stop()] *)
Definition main_twice : proc :=
  Call (Spackler.NewCaddy false) (fun v =>
    (call (Spackler.Go (as_ref v) (fun _ => Skip)) ;;
     call (Spackler.Stop (as_ref v)) ;;
     call (Spackler.Stop (as_ref v)))%P).

(** [c := NewCaddy(false); c.Go(func(_ *Caddy) {}); close(c.SigChan()); c.Stop()] *)
Definition main_close : proc :=
  Call (Spackler.NewCaddy false) (fun v =>
    (call (Spackler.Go (as_ref v) (fun _ => Skip)) ;;
     Call (Spackler.SigChan (as_ref v)) (fun ch => Close (as_ref ch)) ;;
     call (Spackler.Stop (as_ref v)))%P).

(** The main goroutine up to its first [Stop], the listener up to its
    receive, the hand-over, the listener and the task to their ends, the
    main goroutine into its second [Stop]. *)
Definition sched_twice : list label :=
  replicate 38 (LTau 0 true) ++ replicate 2 (LTau 1 true) ++ [LComm 0 1 1] ++
  replicate 7 (LTau 1 true) ++ replicate 6 (LTau 2 true) ++
  replicate 3 (LTau 0 true).

(** The main goroutine alone, through [close] and into [Stop]. *)
Definition sched_close : list label := replicate 44 (LTau 0 true).

(** ** What a goroutine owes the wait group *)

(** [bal n p j]: the code [p] still has [j] calls of [Done] to make on the
    wait group at address [n], for counts that were added already. The package's
    code adds one right before it starts a goroutine that defers the [Done]
    ([bal_add], [bal_load_add], [bal_done]); code outside the package has no
    access to the scope's wait group and owes nothing, whatever else it does
    with channels, goroutines or wait groups of its own. Each struct in the
    store is taken to carry the wait group [n] ([one_coordinator]). *)
Inductive bal (n : nat) : proc -> nat -> Prop :=
| bal_Skip : bal n Skip 0
| bal_Return v : bal n (Return v) 0
| bal_Panic : bal n Panic 0
| bal_Seq p q jp jq :
    bal n p jp -> bal n q jq -> jq = 0%nat \/ p = Skip ->
    bal n (Seq p q) (jp + jq)
| bal_add q j :
    bal n q (S j) -> bal n (Seq (WgAdd (addr n) 1) q) j
| bal_load_add c q j :
    bal n q (S j) ->
    bal n (Seq (Load (addr c) (fun s => WgAdd (wg s) 1)) q) j
| bal_done : bal n (WgAdd (addr n) (-1)) 1
| bal_WgAdd_other m delta : m <> n -> bal n (WgAdd (addr m) delta) 0
| bal_WgAdd_nil delta : bal n (WgAdd nil delta) 0
| bal_Loop body : bal n body 0 -> bal n (Loop body) 0
| bal_Call body k j :
    bal n body j -> (forall v, bal n (k v) 0) -> bal n (Call body k) j
| bal_Defer d rest jd jr :
    bal n d jd -> bal n rest jr -> bal n (Defer d rest) (jd + jr)
| bal_GoStmt body j : bal n body j -> bal n (GoStmt body) j
| bal_NewOnce k : (forall r, bal n (k r) 0) -> bal n (NewOnce k) 0
| bal_OnceDo once body : bal n body 0 -> bal n (OnceDo once body) 0
| bal_OnceBody a body j : bal n body j -> bal n (OnceBody a body) j
| bal_NewWaitGroup k :
    (forall r, r <> addr n -> bal n (k r) 0) -> bal n (NewWaitGroup k) 0
| bal_WgWait w : bal n (WgWait w) 0
| bal_MakeChan k : (forall r, bal n (k r) 0) -> bal n (MakeChan k) 0
| bal_Close ch : bal n (Close ch) 0
| bal_Send ch v : bal n (Send ch v) 0
| bal_Recv ch : bal n (Recv ch) 0
| bal_Select2 ch1 ch2 p1 p2 :
    bal n p1 0 -> bal n p2 0 -> bal n (Select2 ch1 ch2 p1 p2) 0
| bal_Poll ch p d : bal n p 0 -> bal n d 0 -> bal n (Poll ch p d) 0
| bal_NewTicker d k : (forall r, bal n (k r) 0) -> bal n (NewTicker d k) 0
| bal_Notify ch sigs : bal n (Notify ch sigs) 0
| bal_NewBool b k : (forall r, bal n (k r) 0) -> bal n (NewBool b k) 0
| bal_LoadBool r k : (forall b, bal n (k b) 0) -> bal n (LoadBool r k) 0
| bal_AllocCaddy v k :
    wg v = addr n -> (forall r, bal n (k r) 0) -> bal n (AllocCaddy v k) 0
| bal_Load c k j :
    (forall s, wg s = addr n -> bal n (k s) j) -> bal n (Load (addr c) k) j
| bal_Load_nil k : bal n (Load nil k) 0.

(** Every scope in the store belongs to the coordinator whose wait group is
    at address [n]. *)
Definition one_coordinator (n : nat) (h : heap) : Prop :=
  forall c s, caddies h !! c = Some s -> wg s = addr n.

(** The counter is what the goroutines of the pool owe, taken together. *)
Definition balanced (n : nat) (s : state) : Prop :=
  one_coordinator n (hp s) /\
  exists js, Forall2 (bal n) (pool s) js /\
             wgs (hp s) !! n = Some (Z.of_nat (sum_list js)).

(** [c.Go(func(c2 *Caddy) { c2.Go(func(_ *Caddy) { panic(..) }) }); c.Stop();
    c.Wait()] on the scope at address 0. *)
Definition main_nested : proc :=
  (call (Spackler.Go (addr 0)
           (fun c2 => call (Spackler.Go c2 (fun _ => Panic)))) ;;
   call (Spackler.Stop (addr 0)) ;;
   call (Spackler.Wait (addr 0)))%P.

(** How a goroutine started by [Go] ends, by how its function ended. *)
Definition tracked_end (c : completion) : proc :=
  match c with
  | CPanic => Panic
  | _ => Return VVoid
  end.

(** ** Further heaps, scopes and pools *)

(** How a heap changes over time. A channel made by [make] stays one, and
    stays closed once it is closed. *)
Definition chans_grow (l l' : list chan) : Prop :=
  forall n x, l !! n = Some (Unbuffered x) ->
    exists x', l' !! n = Some (Unbuffered x') /\ (x = true -> x' = true).

(** Objects stay where they are: a [sync.Once] only moves forward, wait
    groups and channels are never removed, and the flags and structs in the
    store are never written. *)
Record grows (h h' : heap) : Prop := mkGrows {
  grows_onces : onces_grow (onces h) (onces h');
  grows_wgs : (length (wgs h) <= length (wgs h'))%nat;
  grows_chans : chans_grow (chans h) (chans h');
  grows_bools : bools h `prefix_of` bools h';
  grows_caddies : caddies h `prefix_of` caddies h'
}.

(** The struct [NewCaddy] builds on the heap [h]: every object it points to
    is new. *)
Definition new_caddy (h : heap) : Caddy :=
  mkCaddy (addr (length (onces h))) (addr (length (wgs h)))
          (addr (length (chans h))) (addr (S (length (chans h))))
          (addr (length (bools h))) true.

(** The heap after [NewCaddy(stopOnOS)]. *)
Definition NewCaddy_heap (h : heap) (stopOnOS : bool) : heap :=
  mkHeap (onces h ++ [OnceFresh]) (wgs h ++ [0])
         ((chans h ++ [Unbuffered false]) ++ [Unbuffered false])
         (bools h ++ [stopOnOS]) (caddies h ++ [new_caddy h]) (notified h).

(** The new scope, as [view_of] finds it in that heap. *)
Definition new_view (h : heap) (stopOnOS : bool) : view :=
  mkView (new_caddy h) (length (onces h)) (length (wgs h))
         (length (chans h)) (S (length (chans h))) (length (bools h))
         OnceFresh 0 false false stopOnOS.

(** The main goroutine in [Wait], the listener waiting for its signal. *)
Definition pool_waiting : list proc :=
  [call (Spackler.Wait (addr 0)); listener_waiting 0 view_running_root].

(** The main goroutine in [Wait], the listener and a task at their ends. *)
Definition pool_finished : list proc :=
  [call (Spackler.Wait (addr 0)); Return VVoid; Return VVoid].

(** A heap that holds one [Caddy{}], made without [NewCaddy]. *)
Definition heap_zero : heap := mkHeap [] [] [] [] [zeroCaddy] [].

(** The scope as [listen] leaves it. *)
Definition listened (w : view) : view :=
  mkView (v_caddy w) (v_o w) (v_wg w) (v_stop w) (v_sig w) (v_nd w)
         (match v_once w with OnceFresh => OnceDone | st => st end)
         (listen_count w) (v_stopped w) (v_sigclosed w) (v_notify w).

(** The runtime has put a tick into the ticker channel at address [t]. *)
Definition ticked (h : heap) (t : nat) : heap :=
  upd_chans (fun l => <[t:=TickerC true]> l) h.

(** Two scopes that share no [sync.Once], wait group or channel: scopes of
    two coordinators. *)
Definition apart (w1 w2 : view) : Prop :=
  v_o w1 <> v_o w2 /\ v_wg w1 <> v_wg w2 /\
  v_stop w1 <> v_stop w2 /\ v_stop w1 <> v_sig w2 /\
  v_sig w1 <> v_stop w2 /\ v_sig w1 <> v_sig w2.

(** Two coordinators made by [NewCaddy(false)]; the listener of the first
    has been started. *)
Definition heap_two : heap :=
  mkHeap [OnceDone; OnceFresh] [1; 0]
         [Unbuffered false; Unbuffered false; Unbuffered false; Unbuffered false]
         [false; false]
         [mkCaddy (addr 0) (addr 0) (addr 0) (addr 1) (addr 0) true;
          mkCaddy (addr 1) (addr 1) (addr 2) (addr 3) (addr 1) true] [].
Definition view_two_first : view :=
  mkView (mkCaddy (addr 0) (addr 0) (addr 0) (addr 1) (addr 0) true)
         0 0 0 1 0 OnceDone 1 false false false.
Definition view_two_second : view :=
  mkView (mkCaddy (addr 1) (addr 1) (addr 2) (addr 3) (addr 1) true)
         1 1 2 3 1 OnceFresh 0 false false false.

(** * Proofs *)

(** ** Running one goroutine *)

Lemma lookup_insert_hit {A} (l : list A) i x y :
  l !! i = Some x -> <[i:=y]> l !! i = Some y.
Proof. intros H. apply list_lookup_insert_eq. eapply lookup_lt_Some; eauto. Qed.

Lemma alter_take_plain (l : list chan) a b :
  l !! a = Some (Unbuffered b) -> alter take a l = l.
Proof.
  intros H1. apply list_eq. intros i.
  destruct (decide (i = a)) as [->|Hne].
  - by rewrite list_lookup_alter_eq, H1.
  - by rewrite list_lookup_alter_ne.
Qed.

Lemma gstep_not_done a h p r : gstep a h p = Some r -> done_of p = None.
Proof. destruct p; simpl; congruence. Qed.

Lemma solo_nil b h p : solo b 0 h p = Some (h, p, []).
Proof. reflexivity. Qed.

Lemma solo_cons b n h p p1 h1 sp1 h2 p2 sp2 sp :
  gstep (ATau b) h p = Some (p1, h1, sp1) ->
  solo b n h1 p1 = Some (h2, p2, sp2) ->
  sp = sp1 ++ sp2 ->
  solo b (S n) h p = Some (h2, p2, sp).
Proof. intros H1 H2 ->. simpl. rewrite H1, H2. reflexivity. Qed.

Lemma solo_eq b n h p h1 p1 sp1 h2 sp2 :
  solo b n h p = Some (h1, p1, sp1) -> h1 = h2 -> sp1 = sp2 ->
  solo b n h p = Some (h2, p1, sp2).
Proof. by intros ? <- <-. Qed.

Lemma solo_app b n m h p h1 p1 sp1 h2 p2 sp2 :
  solo b n h p = Some (h1, p1, sp1) ->
  solo b m h1 p1 = Some (h2, p2, sp2) ->
  solo b (n + m) h p = Some (h2, p2, sp1 ++ sp2).
Proof.
  revert h p sp1. induction n as [|n IH]; intros h p sp1 H1 H2; simpl in *.
  - inversion H1; subst. exact H2.
  - destruct (gstep (ATau b) h p) as [[[p' h'] sp]|] eqn:E; [|discriminate].
    destruct (solo b n h' p') as [[[h'' p''] sp']|] eqn:E2; [|discriminate].
    inversion H1; subst. rewrite (IH _ _ _ E2 H2). by rewrite app_assoc.
Qed.

(** A run of [p] is a run of [p; q]. *)
Lemma solo_Seq b n h p q h' p' sp :
  solo b n h p = Some (h', p', sp) ->
  solo b n h (Seq p q) = Some (h', Seq p' q, sp).
Proof.
  revert h p sp. induction n as [|n IH]; intros h p sp H; simpl in *.
  - by inversion H.
  - destruct (gstep (ATau b) h p) as [[[p1 h1] sp1]|] eqn:E; [|discriminate].
    rewrite (gstep_not_done _ _ _ _ E).
    destruct (solo b n h1 p1) as [[[h2 p2] sp2]|] eqn:E2; [|discriminate].
    inversion H; subst. by rewrite (IH _ _ _ E2).
Qed.

Lemma view_of_inv h c w :
  view_of h c = Some w ->
  caddies h !! c = Some (v_caddy w) /\
  (o (v_caddy w) = addr (v_o w) /\ wg (v_caddy w) = addr (v_wg w) /\
   stopChan (v_caddy w) = addr (v_stop w) /\ sigChan (v_caddy w) = addr (v_sig w) /\
   notifyDefault (v_caddy w) = addr (v_nd w)) /\
  (onces h !! v_o w = Some (v_once w) /\ wgs h !! v_wg w = Some (v_count w) /\
   chans h !! v_stop w = Some (Unbuffered (v_stopped w)) /\
   chans h !! v_sig w = Some (Unbuffered (v_sigclosed w)) /\
   bools h !! v_nd w = Some (v_notify w)).
Proof.
  unfold view_of. intros H.
  destruct (caddies h !! c) as [s|]; [|discriminate].
  destruct s as [[|no] [|nw] [|nst] [|nsg] [|nn] top]; simpl in H; try discriminate.
  destruct (onces h !! no) eqn:E1; [|discriminate].
  destruct (wgs h !! nw) eqn:E2; [|discriminate].
  destruct (chans h !! nst) as [[]|] eqn:E3; try discriminate.
  destruct (chans h !! nsg) as [[]|] eqn:E4; try discriminate.
  destruct (bools h !! nn) eqn:E5; [|discriminate].
  inversion H; subst; simpl. repeat split; assumption.
Qed.

(** Symbolic execution: unfold one step, read the heap through the facts at
    hand. *)
Ltac sim :=
  repeat first
    [ progress cbn [gstep done_of tau call chan_ready chan_take is_addr ready
                    onces wgs chans bools caddies notified as_ref WgDone
                    orb andb negb
                    upd_onces upd_wgs upd_chans upd_bools upd_caddies upd_notified]
    | match goal with
      | H : ?l !! ?i = Some _ |- context [ ?l !! ?i ] => rewrite H
      | H : ?f ?s = addr _ |- context [ ?f ?s ] => rewrite H
      | H : ?f ?s = true |- context [ ?f ?s ] => rewrite H
      | H : ?f ?s = false |- context [ ?f ?s ] => rewrite H
      | H : ?l !! ?i = Some _ |- context [ <[?i:=_]> ?l !! ?i ] =>
          rewrite (lookup_insert_hit _ _ _ _ H)
      | H : ?l !! ?i = Some _ |- context [ (?l ++ _) !! ?i ] =>
          rewrite (lookup_app_l_Some _ _ _ _ H)
      | |- context [ (?l ++ [?x]) !! length ?l ] =>
          rewrite (list_lookup_middle l [] x (length l) eq_refl)
      | |- context [ ?a <? ?b ] =>
          first [ rewrite (proj2 (Z.ltb_ge a b)) by lia
                | rewrite (proj2 (Z.ltb_lt a b)) by lia ]
      end ].

Ltac go :=
  first [ apply solo_nil
        | eapply solo_cons; [ sim; reflexivity | go | reflexivity ] ].

Ltac heap_eq :=
  unfold upd_onces, upd_wgs, upd_chans, upd_bools, upd_caddies, upd_notified;
  cbn [onces wgs chans bools caddies notified];
  rewrite ?list_insert_insert_eq, ?app_nil_r; try reflexivity.

Ltac use_view H :=
  let Hc := fresh "Hc" in let Ho := fresh "Ho" in let Hw := fresh "Hw" in
  let Hst := fresh "Hst" in let Hsg := fresh "Hsg" in let Hn := fresh "Hn" in
  let Hon := fresh "Honce" in let Hcnt := fresh "Hcnt" in
  let Hsc := fresh "Hstopc" in let Hgc := fresh "Hsigc" in
  let Hb := fresh "Hnotify" in
  destruct (view_of_inv _ _ _ H)
    as (Hc & (Ho & Hw & Hst & Hsg & Hn) & (Hon & Hcnt & Hsc & Hgc & Hb)).

(** ** [listen] and [Go], run to their end *)

Section calls.
Import Spackler.
Variables (b : bool) (h : heap) (c : nat) (w : view).
Hypothesis Hv : view_of h c = Some w.
Hypothesis Hrun : v_once w <> OnceRunning.
Hypothesis Hpos : 0 <= v_count w.

Lemma listen_solo :
  exists n, solo b n h (call (listen (addr c))) =
              Some (listen_heap h w, Skip, listen_pool c w).
Proof.
  use_view Hv. unfold listen, listen_heap, listen_pool.
  destruct (v_once w) eqn:E; [ | congruence | ].
  - destruct (v_notify w) eqn:En;
      (eexists; eapply solo_eq; [ go | heap_eq | ]); reflexivity.
  - eexists; eapply solo_eq; [ go | heap_eq | ]; reflexivity.
Qed.

Lemma listen_heap_caddies : caddies (listen_heap h w) = caddies h.
Proof. clear Hv Hrun Hpos. unfold listen_heap. by destruct (v_once w). Qed.

Lemma listen_heap_chans : chans (listen_heap h w) = chans h.
Proof. clear Hv Hrun Hpos. unfold listen_heap. by destruct (v_once w). Qed.

Lemma listen_heap_count :
  wgs (listen_heap h w) !! v_wg w = Some (listen_count w).
Proof.
  clear Hrun Hpos. use_view Hv. unfold listen_heap, listen_count.
  destruct (v_once w); simpl; eauto using lookup_insert_hit.
Qed.

Lemma listen_count_pos : 0 <= listen_count w.
Proof. clear Hv Hrun. unfold listen_count. destruct (v_once w); lia. Qed.

Lemma Go_solo_refused f :
  isTopLevel (v_caddy w) = true -> v_stopped w = true ->
  exists n, solo b n h (Go (addr c) f) =
    Some (listen_heap h w, Return (VErr (Some ErrStopping)), listen_pool c w).
Proof.
  intros Htop Hstop. use_view Hv. rewrite Hstop in Hstopc.
  destruct listen_solo as [n Hn'].
  pose proof listen_heap_caddies as Hcad. pose proof listen_heap_chans as Hch.
  rewrite <- Hcad in Hc. rewrite <- Hch in Hstopc.
  eexists. unfold Go. eapply solo_eq.
  - eapply solo_app; [ apply solo_Seq, Hn' | go ].
  - heap_eq. rewrite (alter_take_plain _ _ _ Hstopc).
    by destruct (listen_heap h w).
  - by rewrite app_nil_r.
Qed.

Lemma Go_solo_root f :
  isTopLevel (v_caddy w) = true -> v_stopped w = false ->
  exists n, solo b n h (Go (addr c) f) =
    Some (launch_heap h w [minted (v_caddy w)], Return (VErr None),
          listen_pool c w ++ [tracked (addr c) f (addr (length (caddies h)))]).
Proof.
  intros Htop Hstop. use_view Hv. rewrite Hstop in Hstopc.
  destruct listen_solo as [n Hn'].
  pose proof listen_heap_caddies as Hcad. pose proof listen_heap_chans as Hch.
  pose proof listen_heap_count as Hcnt'. pose proof listen_count_pos as Hpos'.
  rewrite <- Hcad in Hc. rewrite <- Hch in Hstopc.
  eexists. unfold Go, copy. eapply solo_eq.
  - eapply solo_app; [ apply solo_Seq, Hn' | ]. 
    go.
  - unfold launch_heap, minted. heap_eq. by rewrite Ho, Hw, Hst, Hsg, Hn.
  - by rewrite Hcad.
Qed.

Lemma Go_solo_tracked f :
  isTopLevel (v_caddy w) = false ->
  exists n, solo b n h (Go (addr c) f) =
    Some (launch_heap h w [], Return (VErr None),
          listen_pool c w ++ [tracked (addr c) f (addr c)]).
Proof.
  intros Htop. use_view Hv.
  destruct listen_solo as [n Hn'].
  pose proof listen_heap_caddies as Hcad.
  pose proof listen_heap_count as Hcnt'. pose proof listen_count_pos as Hpos'.
  rewrite <- Hcad in Hc.
  eexists. unfold Go. eapply solo_eq.
  - eapply solo_app; [ apply solo_Seq, Hn' | go ].
  - unfold launch_heap. heap_eq.
  - reflexivity.
Qed.
End calls.
Lemma solo_done_det b n m h p h1 p1 sp1 h2 p2 sp2 :
  solo b n h p = Some (h1, p1, sp1) -> is_Some (done_of p1) ->
  solo b m h p = Some (h2, p2, sp2) -> is_Some (done_of p2) ->
  h1 = h2 /\ p1 = p2 /\ sp1 = sp2.
Proof.
  revert m h p sp1 sp2.
  induction n as [|n IH]; intros [|m] h p sp1 sp2 H1 D1 H2 D2; simpl in *.
  - by simplify_eq.
  - simplify_eq. destruct D1 as [d D1].
    destruct (gstep (ATau b) h1 p1) as [r|] eqn:E; [|discriminate].
    apply gstep_not_done in E. congruence.
  - simplify_eq. destruct D2 as [d D2].
    destruct (gstep (ATau b) h2 p2) as [r|] eqn:E; [|discriminate].
    apply gstep_not_done in E. congruence.
  - destruct (gstep (ATau b) h p) as [[[p' h'] sp]|]; [|discriminate].
    destruct (solo b n h' p') as [[[h1' p1'] sp1']|] eqn:E1; [|discriminate].
    destruct (solo b m h' p') as [[[h2' p2'] sp2']|] eqn:E2; [|discriminate].
    simplify_eq.
    destruct (IH _ _ _ _ _ E1 D1 E2 D2) as (-> & -> & ->). done.
Qed.

Lemma gstep_caddies a h p p' h' sp :
  gstep a h p = Some (p', h', sp) -> caddies h `prefix_of` caddies h'.
Proof.
  revert p' h' sp.
  induction p; intros p' h' sp Hs; simpl in Hs;
    unfold tau, chan_take in Hs; repeat case_match; simplify_eq;
    try done; simpl; eauto using prefix_app_r.
Qed.

Lemma step_caddies l s s' :
  step l s = Some s' -> caddies (hp s) `prefix_of` caddies (hp s').
Proof.
  destruct l; simpl; intros H; repeat case_match; simplify_eq; simpl;
    eauto using gstep_caddies.
Qed.

Lemma run_caddies ls s s' :
  run ls s = Some s' -> caddies (hp s) `prefix_of` caddies (hp s').
Proof.
  revert s. induction ls as [|l ls IH]; intros s H; simpl in H.
  - by simplify_eq.
  - destruct (step l s) as [s1|] eqn:E; [|discriminate].
    etrans; [ eapply step_caddies, E | eauto ].
Qed.

Lemma tracked_not_listener c f c2 c' :
  Spackler.tracked c f c2 <> Spackler.listener c'.
Proof.
  unfold Spackler.tracked, Spackler.listener. intros H.
  injection H as _ H.
  apply (f_equal (fun k => k zeroCaddy)) in H. discriminate.
Qed.
Section claims_Go.
Import Spackler.

(** C1. [Go] on a root scope whose stop channel is closed returns
    [ErrStopping] and starts no task: the only goroutine it may start is the
    listener. It is the only error [Go] gives: whenever [Go] returns an
    error, the error is [ErrStopping], the scope is a root scope and the
    broadcast has fired. *)
Theorem Go_root_after_stop_is_refused b h c w f :
  view_of h c = Some w -> v_once w <> OnceRunning -> 0 <= v_count w ->
  (isTopLevel (v_caddy w) = true -> v_stopped w = true ->
   exists n sp,
     solo b n h (Go (addr c) f) =
       Some (listen_heap h w, Return (VErr (Some ErrStopping)), sp) /\
     sp = listen_pool c w /\
     forall c2, tracked (addr c) f c2 ∉ sp) /\
  (forall n h' e sp,
     solo b n h (Go (addr c) f) = Some (h', Return (VErr (Some e)), sp) ->
     e = ErrStopping /\ isTopLevel (v_caddy w) = true /\ v_stopped w = true).
Proof.
  intros Hv Hrun Hpos. split.
  - intros Htop Hstop.
    destruct (Go_solo_refused b h c w Hv Hrun Hpos f Htop Hstop) as [n Hn].
    exists n, (listen_pool c w). repeat split; try done.
    intros c2. unfold listen_pool. destruct (v_once w); try apply not_elem_of_nil.
    intros Hin%list_elem_of_singleton. by apply tracked_not_listener in Hin.
  - intros n h' e sp Hsolo. split; [by destruct e|].
    destruct (isTopLevel (v_caddy w)) eqn:Htop.
    + destruct (v_stopped w) eqn:Hstop; [done|].
      destruct (Go_solo_root b h c w Hv Hrun Hpos f Htop Hstop) as [m Hm].
      destruct (solo_done_det _ _ _ _ _ _ _ _ _ _ _ Hsolo ltac:(by eexists)
                  Hm ltac:(by eexists)) as (_ & ? & _). discriminate.
    + destruct (Go_solo_tracked b h c w Hv Hrun Hpos f Htop) as [m Hm].
      destruct (solo_done_det _ _ _ _ _ _ _ _ _ _ _ Hsolo ltac:(by eexists)
                  Hm ltac:(by eexists)) as (_ & ? & _). discriminate.
Qed.

Lemma Go_root_after_stop_is_refused_witness :
  view_of heap_stopped 0 = Some view_stopped_root /\
  (isTopLevel (v_caddy view_stopped_root) = true /\ v_stopped view_stopped_root = true) /\
  exists n sp,
    solo true n heap_stopped (Go (addr 0) (fun _ => Skip)) =
      Some (heap_stopped, Return (VErr (Some ErrStopping)), sp) /\ sp = [].
Proof.
  split; [reflexivity|]. split; [split; reflexivity|].
  destruct (Go_root_after_stop_is_refused true heap_stopped 0 view_stopped_root
              (fun _ => Skip)) as [H _];
    [ reflexivity | discriminate | simpl; lia | ].
  destruct (H eq_refl eq_refl) as (n & sp & H1 & H2 & _).
  exists n, sp. split; [exact H1 | exact H2].
Defined.
End claims_Go.
Section claims_Go_more.
Import Spackler.



(** C10. When [Go] returns [ErrStopping], all it did was [listen]: the heap
    is the one [listen] leaves, so the counter was not incremented for a
    task and no struct was minted, and no task was started. Once the
    listener has been started before, nothing changes at all. *)
Theorem Go_refusal_changes_nothing b h c w f n h' sp :
  view_of h c = Some w -> v_once w <> OnceRunning -> 0 <= v_count w ->
  solo b n h (Go (addr c) f) = Some (h', Return (VErr (Some ErrStopping)), sp) ->
  h' = listen_heap h w /\ sp = listen_pool c w /\
  wgs h' !! v_wg w = Some (listen_count w) /\
  caddies h' = caddies h /\
  (forall c2, tracked (addr c) f c2 ∉ sp) /\
  (v_once w = OnceDone -> h' = h /\ sp = []).
Proof.
  intros Hv Hrun Hpos Hsolo.
  assert (isTopLevel (v_caddy w) = true /\ v_stopped w = true) as [Htop Hstop].
  { destruct (isTopLevel (v_caddy w)) eqn:Htop.
    - destruct (v_stopped w) eqn:Hstop; [done|].
      destruct (Go_solo_root b h c w Hv Hrun Hpos f Htop Hstop) as [m Hm].
      destruct (solo_done_det _ _ _ _ _ _ _ _ _ _ _ Hsolo ltac:(by eexists)
                  Hm ltac:(by eexists)) as (_ & ? & _). discriminate.
    - destruct (Go_solo_tracked b h c w Hv Hrun Hpos f Htop) as [m Hm].
      destruct (solo_done_det _ _ _ _ _ _ _ _ _ _ _ Hsolo ltac:(by eexists)
                  Hm ltac:(by eexists)) as (_ & ? & _). discriminate. }
  destruct (Go_solo_refused b h c w Hv Hrun Hpos f Htop Hstop) as [m Hm].
  destruct (solo_done_det _ _ _ _ _ _ _ _ _ _ _ Hsolo ltac:(by eexists)
              Hm ltac:(by eexists)) as (-> & _ & ->).
  split_and!; try done.
  - by eapply listen_heap_count.
  - apply listen_heap_caddies.
  - intros c2. unfold listen_pool. destruct (v_once w); try apply not_elem_of_nil.
    intros Hin%list_elem_of_singleton. by apply tracked_not_listener in Hin.
  - unfold listen_heap, listen_pool. by intros ->.
Qed.

Lemma Go_refusal_changes_nothing_witness :
  (view_of heap_stopped 0 = Some view_stopped_root /\
   solo true 8 heap_stopped (Go (addr 0) (fun _ => Skip)) =
     Some (heap_stopped, Return (VErr (Some ErrStopping)), [])) /\
  wgs heap_stopped !! 0%nat = Some 0 /\
  caddies heap_stopped = caddies heap_stopped.
Proof.
  assert (Hrun : solo true 8 heap_stopped (Go (addr 0) (fun _ => Skip)) =
     Some (heap_stopped, Return (VErr (Some ErrStopping)), [])) by reflexivity.
  split; [split; [reflexivity | exact Hrun]|].
  destruct (Go_refusal_changes_nothing true heap_stopped 0 view_stopped_root
              (fun _ => Skip) 8 heap_stopped [])
    as (_ & _ & H1 & H2 & _);
    [ reflexivity | discriminate | simpl; lia | exact Hrun | ].
  split; [exact H1 | exact H2].
Defined.

(** C9. A successful [Go] on a root scope mints one struct, at a new
    address, and hands that address to the task; the struct has the
    caller's [o], [wg], [stopChan], [sigChan] and [notifyDefault] and is not
    a root scope, so it is the caller's struct with [isTopLevel] cleared.
    No step of any goroutine changes a struct that is in the store: the
    store only grows, so [isTopLevel] keeps the value it was created with. *)
Theorem minted_scope_shares_state b h c w f :
  view_of h c = Some w -> v_once w <> OnceRunning -> 0 <= v_count w ->
  isTopLevel (v_caddy w) = true -> v_stopped w = false ->
  (exists n h' c2,
     solo b n h (Go (addr c) f) =
       Some (h', Return (VErr None),
             listen_pool c w ++ [tracked (addr c) f (addr c2)]) /\
     caddies h !! c2 = None /\
     caddies h' = caddies h ++ [minted (v_caddy w)] /\
     caddies h' !! c2 = Some (minted (v_caddy w)) /\
     caddies h' !! c = Some (v_caddy w)) /\
  (o (minted (v_caddy w)) = o (v_caddy w) /\
   wg (minted (v_caddy w)) = wg (v_caddy w) /\
   stopChan (minted (v_caddy w)) = stopChan (v_caddy w) /\
   sigChan (minted (v_caddy w)) = sigChan (v_caddy w) /\
   notifyDefault (minted (v_caddy w)) = notifyDefault (v_caddy w) /\
   isTopLevel (minted (v_caddy w)) = false /\
   minted (v_caddy w) = set_isTopLevel false (v_caddy w)) /\
  (forall ls s s' i x,
     run ls s = Some s' ->
     caddies (hp s) !! i = Some x -> caddies (hp s') !! i = Some x).
Proof.
  intros Hv Hrun Hpos Htop Hstop. split; [|split].
  - destruct (Go_solo_root b h c w Hv Hrun Hpos f Htop Hstop) as [n Hn].
    exists n, (launch_heap h w [minted (v_caddy w)]), (length (caddies h)).
    assert (caddies (launch_heap h w [minted (v_caddy w)]) =
            caddies h ++ [minted (v_caddy w)]) as Hcad.
    { unfold launch_heap. cbn [caddies upd_wgs upd_caddies].
      by rewrite listen_heap_caddies. }
    use_view Hv. rewrite Hcad. repeat split; try done.
    + by apply lookup_ge_None.
    + by rewrite lookup_app_r, Nat.sub_diag.
    + by apply lookup_app_l_Some.
  - by repeat split.
  - intros ls s s' i x Hr Hi.
    eapply prefix_lookup_Some; [exact Hi | eapply run_caddies, Hr].
Qed.

Lemma minted_scope_shares_state_witness :
  (view_of heap_running 0 = Some view_running_root /\
   isTopLevel (v_caddy view_running_root) = true /\
   v_stopped view_running_root = false) /\
  exists n h' c2,
    solo true n heap_running (Go (addr 0) (fun _ => Skip)) =
      Some (h', Return (VErr None), [tracked (addr 0) (fun _ => Skip) (addr c2)]) /\
    caddies heap_running !! c2 = None /\
    caddies h' !! c2 = Some (mkCaddy (addr 0) (addr 0) (addr 0) (addr 1) (addr 0) false).
Proof.
  split; [repeat split|].
  destruct (minted_scope_shares_state true heap_running 0 view_running_root
              (fun _ => Skip)) as [(n & h' & c2 & H1 & H2 & _ & H3 & _) _];
    [ reflexivity | discriminate | simpl; lia | reflexivity | reflexivity | ].
  exists n, h', c2. repeat split; assumption.
Defined.
End claims_Go_more.
(** ** The listener *)

Section listener.
Import Spackler.
Variables (b : bool) (h : heap) (c : nat) (w : view).
Hypothesis Hv : view_of h c = Some w.

Lemma listener_starts :
  solo b 2 h (listener (addr c)) = Some (h, listener_waiting c w, []).
Proof. use_view Hv. unfold listener, listener_waiting. go. Qed.

Lemma listener_takes :
  gstep (ARecv (v_sig w)) h (listener_waiting c w) =
    Some (listener_fired c w, h, []).
Proof. clear Hv. unfold listener_waiting. sim. by rewrite Nat.eqb_refl. Qed.

Lemma listener_sees_close :
  v_sigclosed w = true ->
  gstep (ATau b) h (listener_waiting c w) = Some (listener_fired c w, h, []).
Proof.
  intros Hcl. use_view Hv. rewrite Hcl in Hsigc. unfold listener_waiting. sim.
  unfold upd_chans. rewrite (alter_take_plain _ _ _ Hsigc). by destruct h.
Qed.

Lemma listener_blocks :
  v_sigclosed w = false ->
  gstep (ATau b) h (listener_waiting c w) = None.
Proof.
  intros Hcl. use_view Hv. rewrite Hcl in Hsigc. unfold listener_waiting.
  by sim.
Qed.

Lemma listener_fires :
  v_stopped w = false -> 1 <= v_count w ->
  exists n, solo b n h (listener_fired c w) =
              Some (fired_heap h w, Return VVoid, []).
Proof.
  intros Hst Hcnt. use_view Hv. rewrite Hst in Hstopc.
  unfold listener_fired. eexists. eapply solo_eq; [ go | | reflexivity ].
  unfold fired_heap. heap_eq.
Qed.
End listener.

(** ** [sync.Once] only moves forward *)

Lemma once_le_refl a : once_le a a = true.
Proof. by destruct a. Qed.

Lemma once_le_trans a b c :
  once_le a b = true -> once_le b c = true -> once_le a c = true.
Proof. by destruct a, b, c. Qed.

Lemma onces_grow_refl l : onces_grow l l.
Proof. intros a st H. exists st. eauto using once_le_refl. Qed.

Lemma onces_grow_trans l1 l2 l3 :
  onces_grow l1 l2 -> onces_grow l2 l3 -> onces_grow l1 l3.
Proof.
  intros H1 H2 a st Ha. destruct (H1 _ _ Ha) as (st1 & Hb & Hle1).
  destruct (H2 _ _ Hb) as (st2 & Hc & Hle2). eauto using once_le_trans.
Qed.

Lemma onces_grow_app l x : onces_grow l (l ++ [x]).
Proof.
  intros a st H. exists st. split; [by apply lookup_app_l_Some | apply once_le_refl].
Qed.

Lemma onces_grow_insert l n st0 st1 :
  l !! n = Some st0 -> once_le st0 st1 = true -> onces_grow l (<[n:=st1]> l).
Proof.
  intros Hn Hle a st Ha. destruct (decide (a = n)) as [->|Hne].
  - exists st1. rewrite (lookup_insert_hit _ _ _ _ Hn). split; [done|congruence].
  - exists st. rewrite list_lookup_insert_ne by done. eauto using once_le_refl.
Qed.

Lemma onces_grow_done l n :
  onces_grow l (<[n:=OnceDone]> l).
Proof.
  intros a st Ha. destruct (decide (a = n)) as [->|Hne].
  - exists OnceDone. rewrite (lookup_insert_hit _ _ _ _ Ha). by destruct st.
  - exists st. rewrite list_lookup_insert_ne by done. eauto using once_le_refl.
Qed.

Lemma gstep_onces a h p p' h' sp :
  gstep a h p = Some (p', h', sp) -> onces_grow (onces h) (onces h').
Proof.
  revert p' h' sp.
  induction p; intros p' h' sp Hs; simpl in Hs;
    unfold tau, chan_take in Hs; repeat case_match; simplify_eq;
    try done; simpl;
    eauto using onces_grow_refl, onces_grow_app, onces_grow_done, onces_grow_insert.
Qed.

Lemma step_onces l s s' :
  step l s = Some s' -> onces_grow (onces (hp s)) (onces (hp s')).
Proof.
  destruct l; simpl; intros H; repeat case_match; simplify_eq; simpl;
    eauto using gstep_onces, onces_grow_refl.
Qed.

Lemma run_onces ls s s' :
  run ls s = Some s' -> onces_grow (onces (hp s)) (onces (hp s')).
Proof.
  revert s. induction ls as [|l ls IH]; intros s H; simpl in H.
  - simplify_eq. apply onces_grow_refl.
  - destruct (step l s) as [s1|] eqn:E; [|discriminate].
    eapply onces_grow_trans; [ eapply step_onces, E | eauto ].
Qed.

Section claims_listen.
Import Spackler.

Lemma run_once_done ls s s' a :
  run ls s = Some s' ->
  onces (hp s) !! a = Some OnceDone -> onces (hp s') !! a = Some OnceDone.
Proof.
  intros Hr Ha. destruct (run_onces _ _ _ Hr _ _ Ha) as (st & Hst & Hle).
  by destruct st.
Qed.

Lemma run_once_used ls s s' a st :
  run ls s = Some s' ->
  onces (hp s) !! a = Some st -> st <> OnceFresh ->
  onces (hp s') !! a <> Some OnceFresh.
Proof.
  intros Hr Ha Hne. destruct (run_onces _ _ _ Hr _ _ Ha) as (st' & Hst & Hle).
  rewrite Hst. intros [= ->]. by destruct st.
Qed.

(** C7. The first [listen] on a coordinator starts exactly one goroutine,
    the listener, counts it on the coordinator's wait group (the one [Go]
    counts tasks on), registers the signal channel with [signal.Notify]
    exactly when [*notifyDefault] is true, and uses up the [sync.Once].
    A used [sync.Once] stays used along every run of every pool, and a
    [listen] that finds it used, through whichever handle, starts nothing;
    one that finds it running waits. The listener blocks on an open signal
    channel, completes its receive on a hand-over and on a closed channel
    alike, then closes the stop channel, gives back its count and is
    finished. *)
Theorem listener_started_at_most_once b h c w :
  view_of h c = Some w -> 0 <= v_count w ->
  (v_once w = OnceFresh ->
     (exists n, solo b n h (call (listen (addr c))) =
                  Some (listen_heap h w, Skip, [listener (addr c)])) /\
     onces (listen_heap h w) !! v_o w = Some OnceDone /\
     wgs (listen_heap h w) !! v_wg w = Some (v_count w + 1) /\
     notified (listen_heap h w) =
       notified h ++
         (if v_notify w then [(addr (v_sig w), [SIGINT; SIGTERM])] else [])) /\
  (v_once w = OnceDone ->
     exists n, solo b n h (call (listen (addr c))) = Some (h, Skip, [])) /\
  (v_once w = OnceRunning ->
     forall n, solo b (2 + n) h (call (listen (addr c))) = None) /\
  (forall ls s s' a,
     run ls s = Some s' ->
     (onces (hp s) !! a = Some OnceDone -> onces (hp s') !! a = Some OnceDone) /\
     (forall st, onces (hp s) !! a = Some st -> st <> OnceFresh ->
                 onces (hp s') !! a <> Some OnceFresh)) /\
  (solo b 2 h (listener (addr c)) = Some (h, listener_waiting c w, []) /\
   gstep (ARecv (v_sig w)) h (listener_waiting c w) =
     Some (listener_fired c w, h, []) /\
   (v_sigclosed w = true ->
      gstep (ATau b) h (listener_waiting c w) = Some (listener_fired c w, h, [])) /\
   (v_sigclosed w = false ->
      gstep (ATau b) h (listener_waiting c w) = None) /\
   (v_stopped w = false -> 1 <= v_count w ->
      exists n, solo b n h (listener_fired c w) =
                  Some (fired_heap h w, Return VVoid, []) /\
                chans (fired_heap h w) !! v_stop w = Some (Unbuffered true) /\
                wgs (fired_heap h w) !! v_wg w = Some (v_count w - 1))).
Proof.
  intros Hv Hpos. split_and!.
  - intros Hf.
    destruct (listen_solo b h c w Hv ltac:(congruence) Hpos) as [n Hn].
    assert (listen_pool c w = [listener (addr c)]) as Hp
      by (unfold listen_pool; by rewrite Hf).
    rewrite Hp in Hn. split; [eauto|].
    use_view Hv. unfold listen_heap. rewrite Hf in *.
    cbn [onces wgs notified]. split_and!; eauto using lookup_insert_hit.
  - intros Hd.
    destruct (listen_solo b h c w Hv ltac:(congruence) Hpos) as [n Hn].
    unfold listen_heap, listen_pool in Hn. rewrite Hd in Hn. eauto.
  - intros Hr n. use_view Hv. rewrite Hr in Honce. unfold listen.
    cbn [solo Nat.add]. sim. reflexivity.
  - intros ls s s' a Hr. split.
    + by apply run_once_done with ls.
    + intros st. by apply run_once_used with ls.
  - by apply listener_starts.
  - apply listener_takes.
  - by apply listener_sees_close.
  - by apply listener_blocks.
  - intros Hst Hc1. destruct (listener_fires b h c w Hv Hst Hc1) as [n Hn].
    exists n. use_view Hv. unfold fired_heap. cbn [chans wgs upd_wgs upd_chans].
    split_and!; eauto using lookup_insert_hit.
Qed.

Lemma listener_started_at_most_once_witness :
  (view_of heap_new 0 = Some view_new /\ 0 <= v_count view_new) /\
  (exists n, solo true n heap_new (call (listen (addr 0))) =
               Some (listen_heap heap_new view_new, Skip, [listener (addr 0)])) /\
  wgs (listen_heap heap_new view_new) !! 0%nat = Some 1.
Proof.
  split; [split; [reflexivity | simpl; lia]|].
  destruct (listener_started_at_most_once true heap_new 0 view_new)
    as [H _]; [ reflexivity | simpl; lia | ].
  destruct (H eq_refl) as (H1 & _ & H2 & _).
  split; [exact H1 | exact H2].
Defined.
End claims_listen.
(** ** A closed channel stays closed *)

Lemma stays_closed_refl l : stays_closed l l.
Proof. by intros n. Qed.

Lemma stays_closed_trans l1 l2 l3 :
  stays_closed l1 l2 -> stays_closed l2 l3 -> stays_closed l1 l3.
Proof. intros H1 H2 n Hn. eauto. Qed.

Lemma stays_closed_app l x : stays_closed l (l ++ [x]).
Proof. intros n Hn. by apply lookup_app_l_Some. Qed.

Lemma stays_closed_take l a : stays_closed l (alter take a l).
Proof.
  intros n Hn. destruct (decide (n = a)) as [->|Hne].
  - by rewrite list_lookup_alter_eq, Hn.
  - by rewrite list_lookup_alter_ne.
Qed.

Lemma stays_closed_close l a : stays_closed l (<[a:=Unbuffered true]> l).
Proof.
  intros n Hn. destruct (decide (n = a)) as [->|Hne].
  - by rewrite (lookup_insert_hit _ _ _ _ Hn).
  - by rewrite list_lookup_insert_ne.
Qed.

Lemma stays_closed_tick l a p :
  l !! a = Some (TickerC p) -> stays_closed l (<[a:=TickerC true]> l).
Proof.
  intros Ha n Hn. destruct (decide (n = a)) as [->|Hne].
  - congruence.
  - by rewrite list_lookup_insert_ne.
Qed.

Lemma gstep_stays_closed a h p p' h' sp :
  gstep a h p = Some (p', h', sp) -> stays_closed (chans h) (chans h').
Proof.
  revert p' h' sp.
  induction p; intros p' h' sp Hs; simpl in Hs;
    unfold tau, chan_take in Hs; repeat case_match; simplify_eq;
    try done; simpl;
    eauto using stays_closed_refl, stays_closed_app, stays_closed_take,
      stays_closed_close.
Qed.

Lemma step_stays_closed l s s' :
  step l s = Some s' -> stays_closed (chans (hp s)) (chans (hp s')).
Proof.
  destruct l; simpl; intros H; repeat case_match; simplify_eq; simpl;
    eauto using gstep_stays_closed, stays_closed_refl, stays_closed_tick.
Qed.

Lemma run_stays_closed ls s s' :
  run ls s = Some s' -> stays_closed (chans (hp s)) (chans (hp s')).
Proof.
  revert s. induction ls as [|l ls IH]; intros s H; simpl in H.
  - simplify_eq. apply stays_closed_refl.
  - destruct (step l s) as [s1|] eqn:E; [|discriminate].
    eapply stays_closed_trans; [ eapply step_stays_closed, E | eauto ].
Qed.

(** ** [Looper] *)

Section looper.
Import Spackler.
Variables (c nst : nat) (t : ref) (f : proc).

(** A step of a goroutine in the loop, once the stop channel is closed,
    leaves it in the loop and short of the gate. *)
Lemma in_loop_gstep a h p p' h' sp s :
  caddies h !! c = Some s -> stopChan s = addr nst ->
  chans h !! nst = Some (Unbuffered true) ->
  in_loop c nst t f p ->
  gstep a h p = Some (p', h', sp) ->
  in_loop c nst t f p'.
Proof.
  intros Hc Hst Hch Hin Hs.
  destruct Hin; unfold looper_loop, looper_body, looper_tick, call in *;
    cbn [gstep done_of] in Hs; unfold tau in Hs.
  all: try (destruct a; simplify_eq; by constructor).
  all: try (rewrite ?Hc in Hs; cbn [gstep done_of] in Hs; unfold tau in Hs;
            destruct a; simplify_eq; rewrite ?Hst; by constructor).
  - (* select *)
    destruct a as [b| |m]; [ | done | ].
    + cbn [chan_ready] in Hs. rewrite Hch in Hs. cbn [ready] in Hs.
      destruct (chan_ready h t), b; simplify_eq; constructor.
    + destruct (is_addr t m); [ simplify_eq; constructor | ].
      destruct (is_addr (addr nst) m); simplify_eq; constructor.
  - (* poll *)
    destruct a as [b| |m]; [ | done | ].
    + cbn [chan_ready] in Hs. rewrite Hch in Hs. cbn [ready] in Hs.
      simplify_eq. constructor.
    + destruct (is_addr (addr nst) m); simplify_eq; constructor.
  - (* in f *)
    destruct (done_of x) as [[]|] eqn:Hx.
    + destruct a; simplify_eq; constructor.
    + destruct a; simplify_eq; constructor.
    + destruct a; simplify_eq; constructor.
    + destruct (gstep a h x) as [[[x' h1] sp1]|]; simplify_eq. constructor.
Qed.

(** Without the stop channel closed, a step can also lead to the gate. *)
Lemma loop_forms_gstep a h p p' h' sp s :
  caddies h !! c = Some s -> stopChan s = addr nst ->
  in_loop c nst t f p \/ p = looper_gate c t f ->
  gstep a h p = Some (p', h', sp) ->
  in_loop c nst t f p' \/ p' = looper_gate c t f.
Proof.
  intros Hc Hst [Hin| ->] Hs.
  - destruct Hin; unfold looper_gate, looper_loop, looper_body, looper_tick, call in *;
      cbn [gstep done_of] in Hs; unfold tau in Hs.
    all: try (destruct a; simplify_eq; left; by constructor).
    all: try (rewrite ?Hc in Hs; cbn [gstep done_of] in Hs; unfold tau in Hs;
              destruct a; simplify_eq; rewrite ?Hst; left; by constructor).
    + destruct a as [b| |m]; [ | done | ].
      * destruct (chan_ready h t), (chan_ready h (addr nst)), b;
          simplify_eq; left; constructor.
      * destruct (is_addr t m); [ simplify_eq; left; constructor | ].
        destruct (is_addr (addr nst) m); simplify_eq; left; constructor.
    + destruct a as [b| |m]; [ | done | ].
      * destruct (chan_ready h (addr nst)); simplify_eq;
          [ left; constructor | by right ].
      * destruct (is_addr (addr nst) m); simplify_eq; left; constructor.
    + destruct (done_of x) as [[]|] eqn:Hx.
      * destruct a; simplify_eq; left; constructor.
      * destruct a; simplify_eq; left; constructor.
      * destruct a; simplify_eq; left; constructor.
      * destruct (gstep a h x) as [[[x' h1] sp1]|]; simplify_eq. left; constructor.
  - unfold looper_gate, call in Hs. cbn [gstep done_of] in Hs. unfold tau in Hs.
    destruct a; simplify_eq. left. constructor.
Qed.

Lemma in_loop_step l s1 s2 g p s :
  caddies (hp s1) !! c = Some s -> stopChan s = addr nst ->
  chans (hp s1) !! nst = Some (Unbuffered true) ->
  pool s1 !! g = Some p -> in_loop c nst t f p ->
  step l s1 = Some s2 ->
  exists p', pool s2 !! g = Some p' /\ in_loop c nst t f p'.
Proof.
  intros Hc Hst Hch Hg Hin Hs. destruct l as [i b|i j a|a]; simpl in Hs.
  - destruct (pool s1 !! i) as [q|] eqn:Hi; [|done].
    destruct (gstep (ATau b) (hp s1) q) as [[[q' h'] sp]|] eqn:Hq; [|done].
    simplify_eq. simpl. destruct (decide (g = i)) as [->|Hne].
    + simplify_eq. exists q'. split; [|eauto using in_loop_gstep].
      apply lookup_app_l_Some. eauto using lookup_insert_hit.
    + exists p. split; [|done].
      apply lookup_app_l_Some. by rewrite list_lookup_insert_ne.
  - destruct (i =? j)%nat eqn:Hij; [done|]. apply Nat.eqb_neq in Hij.
    destruct (pool s1 !! i) as [q|] eqn:Hi; [|done].
    destruct (pool s1 !! j) as [r|] eqn:Hj; [|done].
    destruct (gstep (ASend a) (hp s1) q) as [[[q' h'] sp]|] eqn:Hq; [|done].
    destruct (gstep (ARecv a) (hp s1) r) as [[[r' h''] sp']|] eqn:Hr; [|done].
    simplify_eq. simpl. destruct (decide (g = j)) as [->|Hnj].
    + simplify_eq. exists r'. split; [|eauto using in_loop_gstep].
      apply list_lookup_insert_eq. rewrite length_insert.
      eauto using lookup_lt_Some.
    + rewrite list_lookup_insert_ne by done.
      destruct (decide (g = i)) as [->|Hni].
      * simplify_eq. exists q'. split; [|eauto using in_loop_gstep].
        eauto using lookup_insert_hit.
      * exists p. by rewrite list_lookup_insert_ne.
  - repeat case_match; simplify_eq. simpl. eauto.
Qed.

(** Once the stop channel is closed, a goroutine in the loop stays short of
    the gate along every run of the pool. *)
Lemma in_loop_run ls s1 s2 g p s :
  caddies (hp s1) !! c = Some s -> stopChan s = addr nst ->
  chans (hp s1) !! nst = Some (Unbuffered true) ->
  pool s1 !! g = Some p -> in_loop c nst t f p ->
  run ls s1 = Some s2 ->
  exists p', pool s2 !! g = Some p' /\ in_loop c nst t f p'.
Proof.
  revert s1 p. induction ls as [|l ls IH]; intros s1 p Hc Hst Hch Hg Hin Hr;
    simpl in Hr.
  - simplify_eq. eauto.
  - destruct (step l s1) as [s1'|] eqn:E; [|discriminate].
    destruct (in_loop_step _ _ _ _ _ _ Hc Hst Hch Hg Hin E) as (p' & Hg' & Hin').
    eapply (IH s1' p'); eauto.
    + eapply prefix_lookup_Some; [exact Hc | eapply step_caddies, E].
    + by eapply step_stays_closed.
Qed.

Lemma gate_not_in_loop : ~ in_loop c nst t f (looper_gate c t f).
Proof. unfold looper_gate. intros H. inversion H. Qed.

Lemma gate_enters_f a h :
  gstep a h (looper_gate c t f) =
    tau a (Some ((call f ;; looper_loop (addr c) t f)%P, h, [])).
Proof. unfold looper_gate. by destruct a. Qed.
End looper.
Section looper_solo.
Import Spackler.
Variables (b : bool) (h : heap) (c : nat) (w : view).
Hypothesis Hv : view_of h c = Some w.

Lemma chan_take_caddies t : caddies (chan_take h t) = caddies h.
Proof. clear Hv. by destruct t. Qed.

Lemma chan_take_closed t n :
  chans h !! n = Some (Unbuffered true) ->
  chans (chan_take h t) !! n = Some (Unbuffered true).
Proof. clear Hv. destruct t; [done|]. simpl. apply stays_closed_take. Qed.

Lemma chan_take_plain n x : 
  chans h !! n = Some (Unbuffered x) -> chan_take h (addr n) = h.
Proof.
  clear Hv. intros H. unfold chan_take, upd_chans.
  rewrite (alter_take_plain _ _ _ H). by destruct h.
Qed.

(** With the stop channel closed the loop returns, whatever the tick channel
    holds and whichever ready case [select] picks. *)
Lemma loop_returns_on_stop t f :
  v_stopped w = true ->
  exists n h',
    solo b n h (looper_loop (addr c) t f) = Some (h', Return VVoid, []) /\
    (h' = h \/ h' = chan_take h t).
Proof.
  intros Hstop. use_view Hv. rewrite Hstop in Hstopc.
  pose proof (chan_take_plain _ _ Hstopc) as Hk.
  unfold looper_loop, looper_body, looper_tick.
  destruct (chan_ready h t) eqn:Ht; [destruct b eqn:Hb|].
  - pose proof (chan_take_caddies t) as Hcad.
    pose proof Hc as Hc'. rewrite <- Hcad in Hc'.
    pose proof (chan_take_closed t _ Hstopc) as Hcl.
    pose proof (alter_take_plain _ _ _ Hcl) as Hk'.
    eexists _, _. split; [ eapply solo_eq; [ go | | reflexivity ] | ].
    + reflexivity.
    + right. unfold upd_chans. rewrite Hk'. by destruct (chan_take h t).
  - eexists _, _. split; [ eapply solo_eq; [ go | | reflexivity ] | ].
    + reflexivity.
    + left. unfold upd_chans. rewrite (alter_take_plain _ _ _ Hstopc). by destruct h.
  - eexists _, _. split; [ eapply solo_eq; [ go | | reflexivity ] | ].
    + reflexivity.
    + left. unfold upd_chans. rewrite (alter_take_plain _ _ _ Hstopc). by destruct h.
Qed.

Lemma loop_waits t f :
  v_stopped w = false -> chan_ready h t = false ->
  solo b 2 h (looper_loop (addr c) t f) =
    Some (h, looper_at_select c (v_stop w) t f, []) /\
  gstep (ATau b) h (looper_at_select c (v_stop w) t f) = None.
Proof.
  intros Hstop Ht. use_view Hv. rewrite Hstop in Hstopc.
  unfold looper_loop, looper_body, looper_at_select. split; [go|]. by sim.
Qed.

Lemma loop_takes_tick t f :
  v_stopped w = false -> chan_ready h t = true ->
  solo b 4 h (looper_loop (addr c) t f) =
    Some (chan_take h t, looper_at_poll c (v_stop w) t f, []).
Proof.
  intros Hstop Ht. use_view Hv. rewrite Hstop in Hstopc.
  pose proof (chan_take_caddies t) as Hcad.
  pose proof Hc as Hc'. rewrite <- Hcad in Hc'.
  unfold looper_loop, looper_body, looper_tick, looper_at_poll. go.
Qed.

Lemma poll_lets_through t f :
  v_stopped w = false ->
  gstep (ATau b) h (looper_at_poll c (v_stop w) t f) =
    Some (looper_gate c t f, h, []).
Proof.
  intros Hstop. use_view Hv. rewrite Hstop in Hstopc.
  unfold looper_at_poll, looper_gate. by sim.
Qed.

Lemma poll_returns_on_stop t f :
  v_stopped w = true ->
  solo b 3 h (looper_at_poll c (v_stop w) t f) = Some (h, Return VVoid, []).
Proof.
  intros Hstop. use_view Hv. rewrite Hstop in Hstopc.
  pose proof (chan_take_plain _ _ Hstopc) as Hk.
  unfold looper_at_poll. eapply solo_eq; [ go | | reflexivity ].
  exact Hk.
Qed.

(** The loop is left by [return] only on a receive from the stop channel:
    the channel is closed, or a value is handed over on it. *)
Lemma select_returns_only_on_stop a t f h' sp :
  gstep a h (looper_at_select c (v_stop w) t f) =
    Some ((Return VVoid ;; looper_loop (addr c) t f)%P, h', sp) ->
  v_stopped w = true \/ a = ARecv (v_stop w).
Proof.
  use_view Hv. unfold looper_at_select, looper_tick.
  cbn [gstep done_of]. destruct a as [b'| |m]; [ | done | ].
  - cbn [chan_ready]. rewrite Hstopc. cbn [ready].
    destruct (chan_ready h t), (v_stopped w), b'; intros; simplify_eq; eauto.
  - destruct (is_addr t m); [ intros; simplify_eq | ].
    cbn [is_addr]. destruct (m =? v_stop w)%nat eqn:E; [ | intros; simplify_eq ].
    apply Nat.eqb_eq in E. subst. eauto.
Qed.

Lemma poll_returns_only_on_stop a t f h' sp :
  gstep a h (looper_at_poll c (v_stop w) t f) =
    Some (((Return VVoid ;; call f) ;; looper_loop (addr c) t f)%P, h', sp) ->
  v_stopped w = true \/ a = ARecv (v_stop w).
Proof.
  use_view Hv. unfold looper_at_poll.
  cbn [gstep done_of]. destruct a as [b'| |m]; [ | done | ].
  - cbn [chan_ready]. rewrite Hstopc. cbn [ready].
    destruct (v_stopped w); intros; simplify_eq; eauto.
  - cbn [is_addr]. destruct (m =? v_stop w)%nat eqn:E; [ | intros; simplify_eq ].
    apply Nat.eqb_eq in E. subst. eauto.
Qed.
End looper_solo.

Section claims_Looper.
Import Spackler.



End claims_Looper.

Section looper_start.
Import Spackler.
Variables (b : bool) (h : heap) (c : nat) (w : view).
Hypothesis Hv : view_of h c = Some w.
Hypothesis Hrun : v_once w <> OnceRunning.
Hypothesis Hpos : 0 <= v_count w.

(** Up to [if runImmediately]: a zero interval. *)
Lemma Looper_solo_zero ri f :
  exists n, solo b n h (Looper (addr c) 0 ri f) =
    Some (looper_heap h w 0,
          ((if ri then call f else Skip) ;;
           looper_loop (addr c) (addr (length (chans h))) f)%P,
          listen_pool c w).
Proof.
  destruct (listen_solo b h c w Hv Hrun Hpos) as [n Hn].
  pose proof (listen_heap_chans h w) as Hch.
  eexists. unfold Looper. eapply solo_eq.
  - eapply solo_app; [ apply solo_Seq, Hn | ]. cbn [Z.eqb]. rewrite <- Hch. go.
  - unfold looper_heap. heap_eq. cbn [Z.eqb].
    by rewrite insert_app_r_alt, Nat.sub_diag by done.
  - by rewrite app_nil_r.
Qed.

(** Up to [if runImmediately]: a positive interval. *)
Lemma Looper_solo_positive interval ri f :
  0 < interval ->
  exists n, solo b n h (Looper (addr c) interval ri f) =
    Some (looper_heap h w interval,
          ((if ri then call f else Skip) ;;
           looper_loop (addr c) (addr (length (chans h))) f)%P,
          listen_pool c w).
Proof.
  intros Hi.
  destruct (listen_solo b h c w Hv Hrun Hpos) as [n Hn].
  pose proof (listen_heap_chans h w) as Hch.
  assert ((0 =? interval) = false) as Hz by lia.
  assert ((interval <=? 0) = false) as Hz' by lia.
  eexists. unfold Looper. rewrite Hz. eapply solo_eq.
  - eapply solo_app; [ apply solo_Seq, Hn | ].
    eapply solo_cons; [ sim; reflexivity | | reflexivity ].
    eapply solo_cons; [ cbn [gstep]; rewrite Hz'; reflexivity | | reflexivity ].
    rewrite Hch. apply solo_nil.
  - unfold looper_heap. rewrite Hz. heap_eq.
  - by rewrite app_nil_r.
Qed.

(** A negative interval: [time.NewTicker] panics, ahead of
    [if runImmediately]. *)
Lemma Looper_solo_negative interval ri f :
  interval < 0 ->
  exists n, solo b n h (Looper (addr c) interval ri f) =
    Some (listen_heap h w, Panic, listen_pool c w).
Proof.
  intros Hi.
  destruct (listen_solo b h c w Hv Hrun Hpos) as [n Hn].
  assert ((0 =? interval) = false) as Hz by lia.
  assert ((interval <=? 0) = true) as Hz' by lia.
  eexists. unfold Looper. rewrite Hz. eapply solo_eq.
  - eapply solo_app; [ apply solo_Seq, Hn | ].
    eapply solo_cons; [ sim; reflexivity | | reflexivity ].
    eapply solo_cons; [ cbn [gstep]; rewrite Hz'; reflexivity | | reflexivity ].
    apply solo_nil.
  - reflexivity.
  - by rewrite app_nil_r.
Qed.
End looper_start.

Section claims_Looper_start.
Import Spackler.

(** With [runImmediately] and an interval that is not negative, [Looper]
    gets to [f()] ahead of the loop, whether or not the stop broadcast has
    fired: nothing is assumed of [v_stopped]. *)
Lemma Looper_runs_f_first b h c w interval f :
  view_of h c = Some w -> v_once w <> OnceRunning -> 0 <= v_count w ->
  0 <= interval ->
  exists n, solo b n h (Looper (addr c) interval true f) =
    Some (looper_heap h w interval,
          (call f ;; looper_loop (addr c) (addr (length (chans h))) f)%P,
          listen_pool c w).
Proof.
  intros Hv Hrun Hpos Hi.
  destruct (decide (interval = 0)) as [->|Hne].
  - apply (Looper_solo_zero b h c w Hv Hrun Hpos true f).
  - apply (Looper_solo_positive b h c w Hv Hrun Hpos interval true f). lia.
Qed.

(** C8. [Looper(-1, true, f)] on a scope whose listener is running: after
    [c.listen()], [time.NewTicker(-1)] panics; [f] has not been called and
    is not going to be. The heap is untouched, for every [f]. *)
Theorem Looper_negative_interval_panics_before_f :
  forall b f,
    solo b 5 heap_running (Looper (addr 1) (-1) true f) =
      Some (heap_running, Panic, []) /\
    gstep (ATau b) heap_running Panic = None.
Proof. intros b f. split; reflexivity. Qed.
End claims_Looper_start.

(** ** Pools *)

Lemma run_app ls1 ls2 s s1 s2 :
  run ls1 s = Some s1 -> run ls2 s1 = Some s2 -> run (ls1 ++ ls2) s = Some s2.
Proof.
  revert s. induction ls1 as [|l ls1 IH]; intros s H1 H2; simpl in *.
  - by simplify_eq.
  - destruct (step l s) as [s'|]; [|done]. eauto.
Qed.

Lemma step_tau i b h pl p p' h' sp :
  pl !! i = Some p -> gstep (ATau b) h p = Some (p', h', sp) ->
  step (LTau i b) (mkState h pl) = Some (mkState h' (<[i:=p']> pl ++ sp)).
Proof. intros Hi Hs. simpl. by rewrite Hi, Hs. Qed.

Lemma step_comm i j a h pl p q p' q' h1 h2 sp1 sp2 :
  i <> j -> pl !! i = Some p -> pl !! j = Some q ->
  gstep (ASend a) h p = Some (p', h1, sp1) ->
  gstep (ARecv a) h q = Some (q', h2, sp2) ->
  step (LComm i j a) (mkState h pl) =
    Some (mkState h (<[j:=q']> (<[i:=p']> pl))).
Proof.
  intros Hij Hi Hj Hp Hq. simpl.
  apply Nat.eqb_neq in Hij. by rewrite Hij, Hi, Hj, Hp, Hq.
Qed.

(** A goroutine left alone in a pool. *)
Lemma run_solo b n h p h' p' sp pl i :
  solo b n h p = Some (h', p', sp) -> pl !! i = Some p ->
  run (replicate n (LTau i b)) (mkState h pl) =
    Some (mkState h' (<[i:=p']> pl ++ sp)).
Proof.
  revert h p pl sp. induction n as [|n IH]; intros h p pl sp Hs Hi; simpl in Hs.
  - simplify_eq. simpl. by rewrite app_nil_r, list_insert_id.
  - destruct (gstep (ATau b) h p) as [[[p1 h1] sp1]|] eqn:E; [|done].
    destruct (solo b n h1 p1) as [[[h2 p2] sp2]|] eqn:E2; [|done].
    simplify_eq. cbn [replicate run]. rewrite (step_tau _ _ _ _ _ _ _ _ Hi E).
    assert ((<[i:=p1]> pl ++ sp1) !! i = Some p1) as Hi'
      by (apply lookup_app_l_Some; eauto using lookup_insert_hit).
    rewrite (IH _ _ _ _ E2 Hi'). do 2 f_equal.
    rewrite insert_app_l by (rewrite length_insert; eauto using lookup_lt_Some).
    by rewrite list_insert_insert_eq, app_assoc.
Qed.

Section stop.
Import Spackler.
Variables (b : bool) (h : heap) (c : nat) (w : view).
Hypothesis Hv : view_of h c = Some w.

Lemma Stop_reaches_send :
  solo b 1 h (Stop (addr c)) = Some (h, Send (addr (v_sig w)) SIGINT, []).
Proof. use_view Hv. unfold Stop. go. Qed.

Lemma SigChan_returns_sigChan :
  solo b 1 h (SigChan (addr c)) = Some (h, Return (VRef (addr (v_sig w))), []).
Proof. use_view Hv. unfold SigChan. go. Qed.

Lemma send_on_closed_panics v :
  v_sigclosed w = true ->
  gstep (ATau b) h (Send (addr (v_sig w)) v) = Some (Panic, h, []).
Proof. intros Hcl. use_view Hv. rewrite Hcl in Hsigc. by sim. Qed.

Lemma send_alone_blocks v :
  v_sigclosed w = false ->
  gstep (ATau b) h (Send (addr (v_sig w)) v) = None.
Proof. intros Hcl. use_view Hv. rewrite Hcl in Hsigc. by sim. Qed.

Lemma send_hands_over v :
  v_sigclosed w = false ->
  gstep (ASend (v_sig w)) h (Send (addr (v_sig w)) v) = Some (Skip, h, []).
Proof.
  intros Hcl. use_view Hv. rewrite Hcl in Hsigc. sim. by rewrite Nat.eqb_refl.
Qed.

Lemma view_sig_closed_heap :
  v_stop w <> v_sig w ->
  view_of (sig_closed_heap h w) c =
    Some (mkView (v_caddy w) (v_o w) (v_wg w) (v_stop w) (v_sig w) (v_nd w)
                 (v_once w) (v_count w) (v_stopped w) true (v_notify w)).
Proof.
  intros Hne. use_view Hv. unfold view_of, sig_closed_heap.
  cbn [onces wgs chans bools caddies upd_chans].
  rewrite Hc, Ho, Hw, Hst, Hsg, Hn, Honce, Hcnt, Hnotify.
  rewrite list_lookup_insert_ne by done. rewrite Hstopc.
  by rewrite (lookup_insert_hit _ _ _ _ Hsigc).
Qed.
End stop.

Lemma run_cons l ls s s1 s2 :
  step l s = Some s1 -> run ls s1 = Some s2 -> run (l :: ls) s = Some s2.
Proof. intros H1 H2. simpl. by rewrite H1. Qed.

Section triggers.
Import Spackler.
Variables (b : bool) (h : heap) (c : nat) (w : view).
Variables (pl : list proc) (i j : nat).
Hypothesis Hv : view_of h c = Some w.
Hypothesis Hstop : v_stopped w = false.
Hypothesis Hopen : v_sigclosed w = false.
Hypothesis Hcnt : 1 <= v_count w.
Hypothesis Hij : i <> j.
Hypothesis Hi : (i < length pl)%nat.
Hypothesis Hj : pl !! j = Some (listener_waiting c w).

Let final : list proc := <[j:=Return VVoid]> (<[i:=Skip]> pl).

Lemma pool_i p : (<[i:=p]> pl) !! i = Some p.
Proof. clear -Hi. by apply list_lookup_insert_eq. Qed.

Lemma pool_j p : (<[i:=p]> pl) !! j = Some (listener_waiting c w).
Proof. clear -Hj Hij. by rewrite list_lookup_insert_ne. Qed.

(** After the trigger goroutine is through and the listener has taken its
    value, the listener runs to its end. *)
Lemma listener_finishes h0 w0 :
  view_of h0 c = Some w0 -> v_stopped w0 = false -> 1 <= v_count w0 ->
  listener_fired c w0 = listener_fired c w ->
  exists n,
    run (replicate n (LTau j b))
        (mkState h0 (<[j:=listener_fired c w]> (<[i:=Skip]> pl))) =
      Some (mkState (fired_heap h0 w0) final).
Proof.
  clear Hv Hstop Hopen Hcnt. intros Hv0 Hs0 Hc0 Heq.
  destruct (listener_fires b h0 c w0 Hv0 Hs0 Hc0) as [n Hn]. rewrite Heq in Hn.
  exists n. erewrite run_solo; [ | exact Hn | ].
  - unfold final. by rewrite app_nil_r, list_insert_insert_eq.
  - apply list_lookup_insert_eq. rewrite length_insert. eauto using lookup_lt_Some.
Qed.

Lemma Stop_fires :
  exists ls, run ls (mkState h (<[i:=call (Stop (addr c))]> pl)) =
               Some (mkState (fired_heap h w) final).
Proof.
  destruct (listener_finishes h w Hv Hstop Hcnt eq_refl) as [n Hn].
  use_view Hv.
  exists ([LTau i b; LComm i j (v_sig w); LTau i b] ++ replicate n (LTau j b)).
  eapply run_app; [ | exact Hn ].
  eapply run_cons.
  { eapply step_tau; [ apply pool_i | ]. unfold Stop. sim. reflexivity. }
  rewrite app_nil_r, list_insert_insert_eq.
  eapply run_cons.
  { eapply step_comm; [ done | apply pool_i | apply pool_j | | apply listener_takes ].
    sim. rewrite Nat.eqb_refl. reflexivity. }
  rewrite list_insert_insert_eq.
  eapply run_cons.
  { eapply step_tau.
    - rewrite list_lookup_insert_ne by done. apply pool_i.
    - sim. reflexivity. }
  rewrite app_nil_r, list_insert_insert_ne, list_insert_insert_eq by done.
  reflexivity.
Qed.

Lemma write_fires v :
  exists ls, run ls (mkState h (<[i:=Send (addr (v_sig w)) v]> pl)) =
               Some (mkState (fired_heap h w) final).
Proof.
  destruct (listener_finishes h w Hv Hstop Hcnt eq_refl) as [n Hn].
  exists ([LComm i j (v_sig w)] ++ replicate n (LTau j b)).
  eapply run_app; [ | exact Hn ].
  eapply run_cons.
  { eapply step_comm; [ done | apply pool_i | apply pool_j
                      | eapply send_hands_over; eauto | apply listener_takes ]. }
  rewrite list_insert_insert_eq. reflexivity.
Qed.

Lemma close_fires :
  v_stop w <> v_sig w ->
  exists ls, run ls (mkState h (<[i:=Close (addr (v_sig w))]> pl)) =
               Some (mkState (fired_heap (sig_closed_heap h w) w) final).
Proof.
  intros Hne.
  pose proof (view_sig_closed_heap h c w Hv Hne) as Hv'.
  destruct (listener_finishes _ _ Hv' Hstop Hcnt eq_refl) as [n Hn].
  use_view Hv. rewrite Hopen in Hsigc.
  exists ([LTau i b; LTau j b] ++ replicate n (LTau j b)).
  eapply run_app; [ | exact Hn ].
  eapply run_cons.
  { eapply step_tau; [ apply pool_i | ]. sim. reflexivity. }
  rewrite app_nil_r, list_insert_insert_eq.
  eapply run_cons.
  { eapply step_tau; [ apply pool_j | ].
    apply (listener_sees_close b _ c _ Hv' eq_refl). }
  rewrite app_nil_r. reflexivity.
Qed.
End triggers.

Section claims_Stop.
Import Spackler.



(** C4, as the code has it. [Stop] sends on the signal channel itself. With
    the channel closed it panics. With the channel open it gets to its
    send and cannot move on its own; when the listener is waiting the value
    is handed over and [Stop] returns, and when no goroutine of the pool can
    receive on the channel there is no hand-over. *)
Theorem Stop_is_safe_once b h c w pl i :
  view_of h c = Some w -> (i < length pl)%nat ->
  (v_sigclosed w = true ->
     solo b 2 h (Stop (addr c)) = Some (h, Panic, [])) /\
  (v_sigclosed w = false ->
     solo b 1 h (Stop (addr c)) = Some (h, Send (addr (v_sig w)) SIGINT, []) /\
     gstep (ATau b) h (Send (addr (v_sig w)) SIGINT) = None) /\
  (v_sigclosed w = false ->
   forall j, i <> j -> pl !! j = Some (listener_waiting c w) ->
     run [LTau i b; LComm i j (v_sig w); LTau i b]
         (mkState h (<[i:=call (Stop (addr c))]> pl)) =
       Some (mkState h (<[j:=listener_fired c w]> (<[i:=Skip]> pl)))) /\
  (forall j q sender,
     pl !! j = Some q -> gstep (ARecv (v_sig w)) h q = None ->
     step (LComm i j (v_sig w)) (mkState h (<[i:=sender]> pl)) = None).
Proof.
  intros Hv Hi. split_and!.
  - intros Hcl. use_view Hv. rewrite Hcl in Hsigc. unfold Stop.
    eapply solo_eq; [ go | reflexivity | reflexivity ].
  - intros Hop. split; [ by apply Stop_reaches_send | by eapply send_alone_blocks ].
  - intros Hop j Hij Hj. use_view Hv. rewrite Hop in Hsigc.
    eapply run_cons.
    { eapply step_tau; [ by apply list_lookup_insert_eq | ]. unfold Stop. sim. reflexivity. }
    rewrite app_nil_r, list_insert_insert_eq.
    eapply run_cons.
    { eapply step_comm; [ done | by apply list_lookup_insert_eq
                        | by rewrite list_lookup_insert_ne | | apply listener_takes ].
      sim. rewrite Nat.eqb_refl. reflexivity. }
    rewrite list_insert_insert_eq.
    eapply run_cons.
    { eapply step_tau.
      - rewrite list_lookup_insert_ne by done. by apply list_lookup_insert_eq.
      - sim. reflexivity. }
    rewrite app_nil_r, list_insert_insert_ne, list_insert_insert_eq by done.
    reflexivity.
  - intros j q sender Hj Hq. simpl.
    destruct (i =? j)%nat eqn:E; [done|]. apply Nat.eqb_neq in E.
    rewrite list_lookup_insert_eq by done.
    rewrite list_lookup_insert_ne by done. rewrite Hj, Hq.
    by destruct (gstep (ASend (v_sig w)) h sender) as [[[? ?] ?]|].
Qed.

Lemma Stop_is_safe_once_witness :
  (view_of heap_running 0 = Some view_running_root /\
   (0 < length [Skip; listener_waiting 0 view_running_root])%nat) /\
  run [LTau 0 true; LComm 0 1 1; LTau 0 true]
      (mkState heap_running
         [call (Stop (addr 0)); listener_waiting 0 view_running_root]) =
    Some (mkState heap_running [Skip; listener_fired 0 view_running_root]).
Proof.
  split; [split; [reflexivity | simpl; lia]|].
  destruct (Stop_is_safe_once true heap_running 0 view_running_root
              [Skip; listener_waiting 0 view_running_root] 0%nat)
    as (_ & _ & H & _); [ reflexivity | simpl; lia | ].
  exact (H eq_refl 1%nat ltac:(discriminate) eq_refl).
Defined.

(** C4, as stated, fails. After the signal channel was closed from outside,
    [Stop] panics; and a second [Stop], once the listener has taken the
    first value and is gone, leaves the main goroutine in its send with no
    step left to any goroutine. *)
Lemma Stop_twice_panics_or_blocks :
  (exists s, run sched_close (mkState empty_heap [main_close]) = Some s /\
             pool s !! 0%nat = Some Panic) /\
  (exists s, run sched_twice (mkState empty_heap [main_twice]) = Some s /\
             pool s = [Call (Send (addr 1) SIGINT) (fun _ => Skip);
                       Return VVoid; Return VVoid] /\
             hp s = heap_stopped /\
             forall l, step l s = None).
Proof.
  split.
  - eexists. split; [ vm_compute; reflexivity | reflexivity ].
  - eexists. split; [ vm_compute; reflexivity | ]. split_and!; try reflexivity.
    intros [i bb|i j a|a].
    + by destruct i as [|[|[|i]]].
    + destruct i as [|[|[|i]]], j as [|[|[|j]]]; try reflexivity;
        try (by destruct a as [|[|a]]).
      simpl. by destruct (i =? j)%nat.
    + by destruct a as [|[|a]].
Qed.
End claims_Stop.

(** ** The wait group counter *)

Lemma gstep_comm_pure a h p p' h' sp :
  (forall b, a <> ATau b) -> gstep a h p = Some (p', h', sp) -> h' = h /\ sp = [].
Proof.
  intros Ha. revert p' h' sp.
  induction p; intros p' h' sp Hs; simpl in Hs; unfold tau in Hs;
    repeat case_match; simplify_eq; eauto; by destruct (Ha _ eq_refl).
Qed.

Section balance.
Variable n : nat.

Lemma bal_done_zero p j c : bal n p j -> done_of p = Some c -> j = 0%nat.
Proof. destruct 1; simpl; congruence. Qed.

Lemma one_coordinator_same h h' :
  caddies h' = caddies h -> one_coordinator n h -> one_coordinator n h'.
Proof. unfold one_coordinator. intros ->. done. Qed.

Lemma one_coordinator_alloc h v :
  wg v = addr n -> one_coordinator n h ->
  one_coordinator n (upd_caddies (fun l => l ++ [v]) h).
Proof.
  intros Hv Hh c s. simpl. intros [Hc|[_ Hc]]%lookup_app_Some; eauto.
  destruct (c - length (caddies h))%nat; simplify_eq/=. done.
Qed.

Ltac fin :=
  (split; [|split; [|split; [|split]]]);
  [ eauto 6 using bal
  | repeat constructor; eauto
  | eauto
  | simpl; eauto using lookup_insert_hit
  | simpl; lia ].

Ltac plain_end Hone Hv :=
  (split; [|split; [|split; [|split]]]);
  [ by eauto using bal | constructor | exact Hone | exact Hv
  | simpl; lia ].

Ltac plain Hs Hone Hv v0 :=
  try unfold chan_take in Hs; repeat case_match; simplify_eq;
  eexists 0%nat, [], v0; plain_end Hone Hv.

Lemma bal_call d j : bal n d j -> bal n (call d) j.
Proof. intros H. apply bal_Call; [done | intros; constructor]. Qed.
Local Hint Resolve bal_call : core.

(** One step of a goroutine: what it owes changes as the counter does. *)
Lemma bal_gstep a h p p' h' sp j v :
  bal n p j -> one_coordinator n h -> wgs h !! n = Some v -> 0 <= v ->
  gstep a h p = Some (p', h', sp) ->
  exists j' js v',
    bal n p' j' /\ Forall2 (bal n) sp js /\ one_coordinator n h' /\
    wgs h' !! n = Some v' /\
    v' + Z.of_nat j = v + Z.of_nat j' + Z.of_nat (sum_list js).
Proof.
  intros Hb. revert a h p' h' sp v.
  induction Hb; intros act0 h p' h' sp v0 Hone Hv Hpos Hs; simpl in Hs;
    try unfold tau in Hs; try discriminate.
  - (* Seq *)
    destruct (done_of p) as [[]|] eqn:Hd.
    + destruct act0; simplify_eq. rewrite (bal_done_zero _ _ _ Hb1 Hd).
      exists jq, [], v0. fin.
    + destruct act0; simplify_eq. rewrite (bal_done_zero _ _ _ Hb1 Hd).
      destruct H as [->| ->]; [|done].
      exists 0%nat, [], v0. fin.
    + destruct act0; simplify_eq. rewrite (bal_done_zero _ _ _ Hb1 Hd).
      destruct H as [->| ->]; [|done].
      exists 0%nat, [], v0. fin.
    + destruct (gstep act0 h p) as [[[p1 h1] sp1]|] eqn:E; [|done]. simplify_eq.
      destruct (IHHb1 _ _ _ _ _ _ Hone Hv Hpos E) as (j' & js & v' & ? & ? & ? & ? & ?).
      destruct H as [->| ->]; [|done].
      exists (j' + 0)%nat, js, v'. fin.
  - (* Add; q *)
    rewrite Hv in Hs. destruct act0; simplify_eq.
    assert ((v0 + 1 <? 0) = false) as -> by lia.
    exists (0 + S j)%nat, [], (v0 + 1). fin.
  - (* Load; Add; q *)
    destruct (caddies h !! c) as [s|] eqn:Hc; [|done].
    destruct act0; simplify_eq.
    rewrite (Hone _ _ Hc).
    exists j, [], v0. fin.
  - (* Done *)
    rewrite Hv in Hs. destruct act0; simplify_eq.
    exists 0%nat, [], (v0 + -1). fin.
    destruct (v0 + -1 <? 0); constructor.
  - (* Add on another wait group *)
    destruct (wgs h !! m) as [vm|] eqn:Hm; [|done].
    destruct act0; simplify_eq.
    exists 0%nat, [], v0. fin.
    + destruct (vm + delta <? 0); constructor.
    + rewrite list_lookup_insert_ne by done. exact Hv.
  - (* Add on a nil wait group *)
    plain Hs Hone Hv v0.
  - (* Loop *)
    destruct act0; simplify_eq.
    exists (0 + 0)%nat, [], v0. fin.
  - (* Call *)
    destruct (done_of body) as [[]|] eqn:Hd.
    + destruct act0; simplify_eq. rewrite (bal_done_zero _ _ _ Hb Hd).
      exists 0%nat, [], v0. fin.
    + destruct act0; simplify_eq. rewrite (bal_done_zero _ _ _ Hb Hd).
      exists 0%nat, [], v0. fin.
    + destruct act0; simplify_eq. rewrite (bal_done_zero _ _ _ Hb Hd).
      exists 0%nat, [], v0. fin.
    + destruct (gstep act0 h body) as [[[p1 h1] sp1]|] eqn:E; [|done]. simplify_eq.
      destruct (IHHb _ _ _ _ _ _ Hone Hv Hpos E) as (j' & js & v' & ? & ? & ? & ? & ?).
      exists j', js, v'. fin.
  - (* Defer *)
    destruct (done_of rest) as [[]|] eqn:Hd.
    + destruct act0; simplify_eq. rewrite (bal_done_zero _ _ _ Hb2 Hd).
      exists (jd + 0)%nat, [], v0. fin.
    + destruct act0; simplify_eq. rewrite (bal_done_zero _ _ _ Hb2 Hd).
      exists (jd + 0)%nat, [], v0. fin.
    + destruct act0; simplify_eq. rewrite (bal_done_zero _ _ _ Hb2 Hd).
      exists (jd + 0)%nat, [], v0. fin.
    + destruct (gstep act0 h rest) as [[[p1 h1] sp1]|] eqn:E; [|done]. simplify_eq.
      destruct (IHHb2 _ _ _ _ _ _ Hone Hv Hpos E) as (j' & js & v' & ? & ? & ? & ? & ?).
      exists (jd + j')%nat, js, v'. fin.
  - (* go *)
    destruct act0; simplify_eq.
    exists 0%nat, [j], v0. fin.
  - (* NewOnce *)
    plain Hs Hone Hv v0.
  - (* once.Do *)
    plain Hs Hone Hv v0.
  - (* inside once.Do *)
    destruct (done_of body) as [[]|] eqn:Hd.
    + destruct act0; simplify_eq. rewrite (bal_done_zero _ _ _ Hb Hd).
      exists 0%nat, [], v0. fin.
    + destruct act0; simplify_eq. rewrite (bal_done_zero _ _ _ Hb Hd).
      exists 0%nat, [], v0. fin.
    + destruct act0; simplify_eq. rewrite (bal_done_zero _ _ _ Hb Hd).
      exists 0%nat, [], v0. fin.
    + destruct (gstep act0 h body) as [[[p1 h1] sp1]|] eqn:E; [|done]. simplify_eq.
      destruct (IHHb _ _ _ _ _ _ Hone Hv Hpos E) as (j' & js & v' & ? & ? & ? & ? & ?).
      exists j', js, v'. fin.
  - (* NewWaitGroup *)
    destruct act0; simplify_eq.
    exists 0%nat, [], v0. fin.
    + apply H. intros [= Heq]. apply lookup_lt_Some in Hv. lia.
    + by apply lookup_app_l_Some.
  - (* Wait *) plain Hs Hone Hv v0.
  - (* make *) plain Hs Hone Hv v0.
  - (* close *) plain Hs Hone Hv v0.
  - (* send *) plain Hs Hone Hv v0.
  - (* receive *) plain Hs Hone Hv v0.
  - (* select *) plain Hs Hone Hv v0.
  - (* select with default *) plain Hs Hone Hv v0.
  - (* NewTicker *) plain Hs Hone Hv v0.
  - (* Notify *) plain Hs Hone Hv v0.
  - (* NewBool *) plain Hs Hone Hv v0.
  - (* LoadBool *) plain Hs Hone Hv v0.
  - (* a struct enters the store *)
    destruct act0; simplify_eq.
    exists 0%nat, [], v0. fin. by apply one_coordinator_alloc.
  - (* Load *)
    destruct (caddies h !! c) as [s|] eqn:Hc; [|done].
    destruct act0; simplify_eq.
    exists j, [], v0. fin.
  - (* Load of nil *) plain Hs Hone Hv v0.
Qed.

End balance.

Lemma sum_list_insert (js : list nat) i x y :
  js !! i = Some x -> (sum_list (<[i:=y]> js) + x = sum_list js + y)%nat.
Proof.
  revert i. induction js as [|z js IH]; intros [|i] H; simplify_eq/=.
  - lia.
  - specialize (IH _ H). lia.
Qed.

Section balance_pool.
Variable n : nat.

Lemma balanced_step l s s' : balanced n s -> step l s = Some s' -> balanced n s'.
Proof.
  intros (Hone & js & Hall & Hcnt) Hs.
  assert (0 <= Z.of_nat (sum_list js)) as Hpos by lia.
  destruct l as [i b|i j a|a]; simpl in Hs.
  - destruct (pool s !! i) as [p|] eqn:Hi; [|done].
    destruct (gstep (ATau b) (hp s) p) as [[[p' h'] sp]|] eqn:Hp; [|done].
    simplify_eq.
    destruct (Forall2_lookup_l _ _ _ _ _ Hall Hi) as (k & Hk & Hbal).
    destruct (bal_gstep n _ _ _ _ _ _ _ _ Hbal Hone Hcnt Hpos Hp)
      as (k' & ks & v' & Hb' & Hsp & Hone' & Hv' & Heq).
    split; [exact Hone'|]. exists (<[i:=k']> js ++ ks). split.
    + simpl. apply Forall2_app; [|done]. by apply Forall2_insert.
    + simpl. rewrite Hv'. f_equal. rewrite sum_list_with_app.
      pose proof (sum_list_insert js i k k' Hk). lia.
  - destruct (i =? j)%nat; [done|].
    destruct (pool s !! i) as [p|] eqn:Hi; [|done].
    destruct (pool s !! j) as [q|] eqn:Hj; [|done].
    destruct (gstep (ASend a) (hp s) p) as [[[p' h1] sp1]|] eqn:Hp; [|done].
    destruct (gstep (ARecv a) (hp s) q) as [[[q' h2] sp2]|] eqn:Hq; [|done].
    simplify_eq.
    destruct (gstep_comm_pure (ASend a) _ _ _ _ _ ltac:(intros ? ?; discriminate) Hp) as [-> ->].
    destruct (gstep_comm_pure (ARecv a) _ _ _ _ _ ltac:(intros ? ?; discriminate) Hq) as [-> ->].
    destruct (Forall2_lookup_l _ _ _ _ _ Hall Hi) as (k & Hk & Hbal).
    destruct (Forall2_lookup_l _ _ _ _ _ Hall Hj) as (k2 & Hk2 & Hbal2).
    destruct (bal_gstep n _ _ _ _ _ _ _ _ Hbal Hone Hcnt Hpos Hp)
      as (k' & ks & v' & Hb' & Hsp & _ & Hv' & Heq).
    destruct (bal_gstep n _ _ _ _ _ _ _ _ Hbal2 Hone Hcnt Hpos Hq)
      as (k2' & ks2 & v2' & Hb2' & Hsp2 & _ & Hv2' & Heq2).
    inversion Hsp; inversion Hsp2; subst. simpl in *.
    assert (k' = k) as -> by (simplify_eq; lia).
    assert (k2' = k2) as -> by (simplify_eq; lia).
    split; [exact Hone|]. exists js. split; [|done]. simpl.
    rewrite <- (list_insert_id js j k2) by done.
    apply Forall2_insert; [|done].
    rewrite <- (list_insert_id js i k) by done.
    by apply Forall2_insert.
  - destruct (chans (hp s) !! a) as [[]|]; simplify_eq.
    split; [exact Hone|]. by exists js.
Qed.

Lemma balanced_run ls s s' : balanced n s -> run ls s = Some s' -> balanced n s'.
Proof.
  revert s. induction ls as [|l ls IH]; intros s Hb Hr; simpl in Hr.
  - by simplify_eq.
  - destruct (step l s) as [s1|] eqn:E; [|done]. eauto using balanced_step.
Qed.

Lemma balanced_counter s :
  balanced n s -> exists v, wgs (hp s) !! n = Some v /\ 0 <= v.
Proof. intros (_ & js & _ & Hcnt). eexists. split; [exact Hcnt | lia]. Qed.
End balance_pool.

(** ** The package's code is balanced *)

Section balance_api.
Import Spackler.
Variable n : nat.

Local Hint Constructors bal : core.

Lemma bal_Seq0 p q : bal n p 0 -> bal n q 0 -> bal n (Seq p q) 0.
Proof. intros Hp Hq. apply (bal_Seq n p q 0 0); eauto. Qed.

Lemma bal_call0 p : bal n p 0 -> bal n (call p) 0.
Proof. intros Hp. apply bal_Call; [done | constructor]. Qed.

Local Hint Resolve bal_Seq0 bal_call0 : core.

(** The listener owes the one [Done] it defers. *)
Lemma bal_listener c : bal n (listener (addr c)) 1.
Proof.
  unfold listener. constructor. intros s Hs. cbn zeta. rewrite Hs.
  apply (bal_Defer n _ _ 1 0); [constructor|].
  constructor. intros s1 _. cbn zeta. apply bal_Seq0; [constructor|].
  constructor. intros; constructor.
Qed.

(** So does the goroutine [Go] starts. *)
Lemma bal_tracked c f c2 :
  (forall r, bal n (f r) 0) -> bal n (tracked (addr c) f c2) 1.
Proof.
  intros Hf. unfold tracked. constructor. intros s Hs. cbn zeta. rewrite Hs.
  apply (bal_Defer n _ _ 1 0); [constructor|]. by apply bal_call0.
Qed.

Lemma bal_listen c : bal n (listen c) 0.
Proof.
  destruct c as [|c]; [constructor|].
  unfold listen. constructor. intros s Hs. cbn zeta. constructor.
  constructor. intros s1 _. cbn zeta. constructor. intros b.
  apply bal_Seq0.
  - destruct b; [|constructor]. constructor. intros; constructor.
  - apply bal_load_add. constructor. apply bal_listener.
Qed.

Lemma bal_copy c : bal n (copy c) 0.
Proof.
  destruct c as [|c]; [constructor|].
  unfold copy. constructor. intros s0 _. cbn zeta.
  constructor. intros s1 Hs1. cbn zeta.
  do 3 (constructor; intros ? _; cbn zeta).
  constructor; [exact Hs1 | intros; constructor].
Qed.

(** [Go] owes nothing, before and after: the count it adds is owed by the
    goroutine it starts. *)
Lemma bal_Go c f : (forall r, bal n (f r) 0) -> bal n (Go c f) 0.
Proof.
  intros Hf. destruct c as [|c].
  { unfold Go. apply bal_Seq0; [apply bal_call0, bal_listen | constructor]. }
  assert (forall c2,
    bal n ((Load (addr c) (fun s => WgAdd (wg s) 1)) ;;
           GoStmt (tracked (addr c) f c2) ;; Return (VErr None))%P 0) as Hl.
  { intros c2. apply bal_load_add.
    apply (bal_Seq n _ _ 1 0); [ | constructor | by left ].
    constructor. by apply bal_tracked. }
  unfold Go. apply bal_Seq0; [apply bal_call0, bal_listen|].
  constructor. intros s Hs. cbn zeta.
  destruct (isTopLevel s); [|apply Hl].
  apply bal_Seq0.
  - constructor. intros s1 _. cbn zeta. constructor; constructor.
  - constructor; [apply bal_copy | intros v; apply Hl].
Qed.

Lemma bal_Looper c interval ri f :
  bal n f 0 -> bal n (Looper c interval ri f) 0.
Proof.
  intros Hf.
  assert (forall t, bal n (looper_loop c t f) 0) as Hloop.
  { intros t. unfold looper_loop, looper_body, looper_tick. constructor.
    destruct c as [|c]; [constructor|].
    constructor. intros s _. cbn zeta. constructor; [|constructor].
    apply bal_Seq0; [|by apply bal_call0].
    constructor. intros s1 _. cbn zeta. constructor; constructor. }
  assert (forall t, bal n ((if ri then call f else Skip) ;; looper_loop c t f)%P 0)
    as Hrest.
  { intros t. apply bal_Seq0; [|done]. destruct ri; [by apply bal_call0|constructor]. }
  unfold Looper. apply bal_Seq0; [apply bal_call0, bal_listen|].
  destruct (0 =? interval).
  - constructor. intros ch. apply bal_Seq0; [constructor|done].
  - by constructor.
Qed.

Lemma bal_Stop c : bal n (Stop c) 0.
Proof.
  destruct c as [|c]; [constructor|]. unfold Stop.
  constructor. intros; constructor.
Qed.

Lemma bal_Wait c : bal n (Wait c) 0.
Proof.
  destruct c as [|c]; [constructor|]. unfold Wait.
  constructor. intros; constructor.
Qed.

Lemma bal_Stopping c : bal n (Stopping c) 0.
Proof.
  destruct c as [|c]; [constructor|]. unfold Stopping.
  constructor. intros; constructor.
Qed.

Lemma bal_SigChan c : bal n (SigChan c) 0.
Proof.
  destruct c as [|c]; [constructor|]. unfold SigChan.
  constructor. intros; constructor.
Qed.
End balance_api.

Section claims_counter.
Import Spackler.

(** A goroutine that defers [Done] lets the steps of its function through. *)
Lemma deferred_Done_waits a h nw x :
  done_of x = None ->
  gstep a h (Defer (WgDone (addr nw)) (call x)) =
    match gstep a h x with
    | Some (x', h', sp) => Some (Defer (WgDone (addr nw)) (call x'), h', sp)
    | None => None
    end.
Proof.
  intros Hx. cbn [gstep done_of call]. rewrite Hx.
  by destruct (gstep a h x) as [[[? ?] ?]|].
Qed.

(** When the function has ended, by falling off its end, by [return] or by
    a panic, the deferred [Done] runs, once, and the goroutine is over. *)
Lemma deferred_Done_runs b h nw v x cpl :
  wgs h !! nw = Some v -> 1 <= v -> done_of x = Some cpl ->
  exists n,
    solo b n h (Defer (WgDone (addr nw)) (call x)) =
      Some (upd_wgs (fun l => <[nw:=v + -1]> l) h, tracked_end cpl, []).
Proof.
  intros Hv Hpos Hx.
  destruct x; try discriminate; simpl in Hx; simplify_eq; simpl;
    eexists; (eapply solo_eq; [ go | reflexivity | reflexivity ]).
Qed.


Lemma sample_pool_balanced : balanced 0 (mkState heap_new [main_nested]).
Proof.
  split.
  - intros [|c] s H; simpl in H; simplify_eq; done.
  - exists [0%nat]. split; [|reflexivity].
    repeat constructor. unfold main_nested.
    apply bal_Seq0; [ apply bal_call0, bal_Go | ].
    + intros r. apply bal_call0, bal_Go. intros; constructor.
    + apply bal_Seq0; apply bal_call0; [ apply bal_Stop | apply bal_Wait ].
Qed.

End claims_counter.

(** * More of the package *)

Lemma chans_grow_refl l : chans_grow l l.
Proof. intros n x H. eauto. Qed.

Lemma chans_grow_trans l1 l2 l3 :
  chans_grow l1 l2 -> chans_grow l2 l3 -> chans_grow l1 l3.
Proof.
  intros H1 H2 n x Hn. destruct (H1 _ _ Hn) as (x1 & Hx1 & Hi1).
  destruct (H2 _ _ Hx1) as (x2 & Hx2 & Hi2). eauto.
Qed.

Lemma chans_grow_app l x : chans_grow l (l ++ [x]).
Proof. intros n y Hn. exists y. split; [by apply lookup_app_l_Some | done]. Qed.

Lemma chans_grow_take l a : chans_grow l (alter take a l).
Proof.
  intros n x Hn. exists x. split; [|done].
  destruct (decide (n = a)) as [->|Hne].
  - by rewrite list_lookup_alter_eq, Hn.
  - by rewrite list_lookup_alter_ne.
Qed.

Lemma chans_grow_close l a : chans_grow l (<[a:=Unbuffered true]> l).
Proof.
  intros n x Hn. destruct (decide (n = a)) as [->|Hne].
  - exists true. by rewrite (lookup_insert_hit _ _ _ _ Hn).
  - exists x. by rewrite list_lookup_insert_ne.
Qed.

Lemma chans_grow_tick l a p :
  l !! a = Some (TickerC p) -> chans_grow l (<[a:=TickerC true]> l).
Proof.
  intros Ha n x Hn. destruct (decide (n = a)) as [->|Hne].
  - congruence.
  - exists x. by rewrite list_lookup_insert_ne.
Qed.

Lemma grows_refl h : grows h h.
Proof.
  split; eauto using onces_grow_refl, chans_grow_refl.
Qed.

Lemma grows_trans h1 h2 h3 : grows h1 h2 -> grows h2 h3 -> grows h1 h3.
Proof.
  intros [] []. split; eauto using onces_grow_trans, chans_grow_trans.
  - lia.
  - by etrans.
  - by etrans.
Qed.

Lemma gstep_grows a h p p' h' sp :
  gstep a h p = Some (p', h', sp) -> grows h h'.
Proof.
  intros Hs. split.
  - eauto using gstep_onces.
  - revert p' h' sp Hs.
    induction p; intros p' h' sp Hs; simpl in Hs;
      unfold tau, chan_take in Hs; repeat case_match; simplify_eq;
      try done; simpl; rewrite ?length_app, ?length_insert; eauto; lia.
  - revert p' h' sp Hs.
    induction p; intros p' h' sp Hs; simpl in Hs;
      unfold tau, chan_take in Hs; repeat case_match; simplify_eq;
      try done; simpl;
      eauto using chans_grow_refl, chans_grow_app, chans_grow_take, chans_grow_close.
  - revert p' h' sp Hs.
    induction p; intros p' h' sp Hs; simpl in Hs;
      unfold tau, chan_take in Hs; repeat case_match; simplify_eq;
      try done; simpl; eauto using prefix_app_r.
  - eauto using gstep_caddies.
Qed.

Lemma step_grows l s s' : step l s = Some s' -> grows (hp s) (hp s').
Proof.
  destruct l; simpl; intros H; repeat case_match; simplify_eq; simpl;
    eauto using gstep_grows, grows_refl.
  split; simpl; eauto using onces_grow_refl, chans_grow_tick.
Qed.

Lemma run_grows ls s s' : run ls s = Some s' -> grows (hp s) (hp s').
Proof.
  revert s. induction ls as [|l ls IH]; intros s H; simpl in H.
  - simplify_eq. apply grows_refl.
  - destruct (step l s) as [s1|] eqn:E; [|discriminate].
    eapply grows_trans; [ eapply step_grows, E | eauto ].
Qed.

Lemma solo_grows b n h p h' p' sp :
  solo b n h p = Some (h', p', sp) -> grows h h'.
Proof.
  revert h p sp. induction n as [|n IH]; intros h p sp H; simpl in H.
  - simplify_eq. apply grows_refl.
  - destruct (gstep (ATau b) h p) as [[[p1 h1] sp1]|] eqn:E; [|discriminate].
    destruct (solo b n h1 p1) as [[[h2 p2] sp2]|] eqn:E2; [|discriminate].
    simplify_eq. eapply grows_trans; [ eapply gstep_grows, E | eauto ].
Qed.

Lemma view_of_grows h h' c w :
  view_of h c = Some w -> grows h h' ->
  exists w',
    view_of h' c = Some w' /\
    v_caddy w' = v_caddy w /\
    (v_o w' = v_o w /\ v_wg w' = v_wg w /\ v_stop w' = v_stop w /\
     v_sig w' = v_sig w /\ v_nd w' = v_nd w) /\
    once_le (v_once w) (v_once w') = true /\
    (v_stopped w = true -> v_stopped w' = true) /\
    (v_sigclosed w = true -> v_sigclosed w' = true) /\
    v_notify w' = v_notify w.
Proof.
  intros Hv [Ho Hw Hch Hb Hc]. use_view Hv.
  destruct (Ho _ _ Honce) as (st' & Hst' & Hle).
  destruct (lookup_lt_is_Some_2 (wgs h') (v_wg w)) as [v' Hv'].
  { apply lookup_lt_Some in Hcnt. lia. }
  destruct (Hch _ _ Hstopc) as (x1 & Hx1 & Hi1).
  destruct (Hch _ _ Hsigc) as (x2 & Hx2 & Hi2).
  pose proof (prefix_lookup_Some _ _ _ _ Hnotify Hb) as Hb'.
  pose proof (prefix_lookup_Some _ _ _ _ Hc0 Hc) as Hc'.
  eexists (mkView (v_caddy w) (v_o w) (v_wg w) (v_stop w) (v_sig w) (v_nd w)
             st' v' x1 x2 (v_notify w)).
  split; [|by repeat split].
  unfold view_of. rewrite Hc', Ho0, Hw0, Hst, Hsg, Hn, Hst', Hv', Hx1, Hx2, Hb'.
  reflexivity.
Qed.

Section NewCaddy_facts.
Import Spackler.

Lemma NewCaddy_solo b h stopOnOS :
  solo b 6 h (NewCaddy stopOnOS) =
    Some (NewCaddy_heap h stopOnOS, Return (VRef (addr (length (caddies h)))), []).
Proof.
  unfold NewCaddy, NewCaddy_heap, new_caddy.
  eapply solo_eq; [ go | | reflexivity ].
  heap_eq. by rewrite length_app, Nat.add_1_r.
Qed.

Lemma NewCaddy_view h stopOnOS :
  view_of (NewCaddy_heap h stopOnOS) (length (caddies h)) =
    Some (new_view h stopOnOS).
Proof.
  unfold view_of, NewCaddy_heap, new_view. cbn [onces wgs chans bools caddies].
  rewrite (list_lookup_middle (caddies h) [] _ _ eq_refl).
  cbn [new_caddy o wg stopChan sigChan notifyDefault].
  rewrite (list_lookup_middle (onces h) [] _ _ eq_refl).
  rewrite (list_lookup_middle (wgs h) [] _ _ eq_refl).
  rewrite (list_lookup_middle (bools h) [] _ _ eq_refl).
  rewrite <- app_assoc. cbn [app].
  rewrite (list_lookup_middle (chans h) [_] _ _ eq_refl).
  rewrite (lookup_app_r (chans h)) by lia.
  replace (S (length (chans h)) - length (chans h))%nat with 1%nat by lia.
  reflexivity.
Qed.
End NewCaddy_facts.

Section NewCaddy_claims.
Import Spackler.

Lemma NewCaddy_keeps_views h stopOnOS c w :
  view_of h c = Some w -> view_of (NewCaddy_heap h stopOnOS) c = Some w.
Proof.
  intros Hv. use_view Hv. unfold view_of, NewCaddy_heap.
  cbn [onces wgs chans bools caddies].
  rewrite (lookup_app_l_Some _ _ _ _ Hc), Ho, Hw, Hst, Hsg, Hn.
  rewrite (lookup_app_l_Some _ _ _ _ Honce), (lookup_app_l_Some _ _ _ _ Hcnt).
  rewrite (lookup_app_l_Some _ _ _ _ (lookup_app_l_Some _ _ _ _ Hstopc)).
  rewrite (lookup_app_l_Some _ _ _ _ (lookup_app_l_Some _ _ _ _ Hsigc)).
  rewrite (lookup_app_l_Some _ _ _ _ Hnotify).
  by destruct w.
Qed.

(** X1. [NewCaddy(stopOnOS)] runs to its [return] from every heap. It hands
    out a pointer to a struct that was not in the store, a root scope whose
    [sync.Once] is unused, whose wait group counts zero, whose stop and
    signal channels are two different open channels and whose flag holds
    [stopOnOS]. It starts no goroutine and registers for no signal. Every
    scope that was in the heap is as it was, and shares no [sync.Once],
    wait group or channel with the new one. *)
Theorem NewCaddy_builds_fresh_root b h stopOnOS :
  solo b 6 h (NewCaddy stopOnOS) =
    Some (NewCaddy_heap h stopOnOS,
          Return (VRef (addr (length (caddies h)))), []) /\
  caddies h !! length (caddies h) = None /\
  (exists w,
     view_of (NewCaddy_heap h stopOnOS) (length (caddies h)) = Some w /\
     isTopLevel (v_caddy w) = true /\ v_once w = OnceFresh /\ v_count w = 0 /\
     v_stopped w = false /\ v_sigclosed w = false /\ v_notify w = stopOnOS /\
     v_stop w <> v_sig w /\
     forall c w0, view_of h c = Some w0 ->
       v_o w0 <> v_o w /\ v_wg w0 <> v_wg w /\
       v_stop w0 <> v_stop w /\ v_stop w0 <> v_sig w /\
       v_sig w0 <> v_stop w /\ v_sig w0 <> v_sig w) /\
  notified (NewCaddy_heap h stopOnOS) = notified h /\
  (forall c w0, view_of h c = Some w0 ->
     view_of (NewCaddy_heap h stopOnOS) c = Some w0).
Proof.
  split_and!.
  - apply NewCaddy_solo.
  - by apply lookup_ge_None.
  - exists (new_view h stopOnOS). split; [apply NewCaddy_view|].
    split_and!; try reflexivity.
    + simpl. lia.
    + intros c w0 Hv. use_view Hv.
      apply lookup_lt_Some in Honce, Hcnt, Hstopc, Hsigc. simpl.
      split_and!; lia.
  - reflexivity.
  - intros c w0. apply NewCaddy_keeps_views.
Qed.
End NewCaddy_claims.

Section balance_fun.
Variable n : nat.

Lemma bal_no_add j : bal n (WgAdd (addr n) 1) j -> False.
Proof. intros H. inversion H; subst; congruence. Qed.

Lemma bal_Load_inv c k j :
  bal n (Load (addr c) k) j -> forall s, wg s = addr n -> bal n (k s) j.
Proof. intros H. inversion H; subst. done. Qed.

Lemma bal_no_load_add c j :
  bal n (Load (addr c) (fun s => WgAdd (wg s) 1)) j -> False.
Proof.
  intros H. apply (bal_no_add j).
  apply (bal_Load_inv _ _ _ H (mkCaddy nil (addr n) nil nil nil false)). reflexivity.
Qed.

(** What a piece of code owes is settled by the code. *)
Lemma bal_fun p j : bal n p j -> forall j', bal n p j' -> j = j'.
Proof.
  induction 1; intros j' H'; inversion H'; subst; try done;
    try (exfalso; eauto using bal_no_add, bal_no_load_add; fail);
    try (f_equal; eauto; fail).
  all: try match goal with
         | IH : forall j', bal n ?q j' -> S _ = j', H1 : bal n ?q (S _) |- _ =>
             by injection (IH _ H1)
         end.
  match goal with
  | IH : forall s, wg s = addr n -> forall j', bal n (_ s) j' -> _ = j' |- _ =>
      eapply (IH (mkCaddy nil (addr n) nil nil nil false)); eauto
  end.
Qed.
End balance_fun.

Lemma sum_list_zero (js : list nat) :
  (forall j k, js !! j = Some k -> k = 0%nat) -> sum_list js = 0%nat.
Proof.
  induction js as [|x js IH]; intros H; [done|]. simpl.
  rewrite (H 0%nat x eq_refl), IH; [done|].
  intros j k Hj. apply (H (S j) k Hj).
Qed.

Lemma sum_list_lookup_le (js : list nat) j k :
  js !! j = Some k -> (k <= sum_list js)%nat.
Proof.
  revert j. induction js as [|x js IH]; intros [|j] H; simplify_eq/=; [lia|].
  specialize (IH _ H). lia.
Qed.

Section claims_Wait.
Import Spackler.


Lemma pool_waiting_balanced : balanced 0 (mkState heap_running pool_waiting).
Proof.
  split.
  - intros [|[|c]] s H; simpl in H; simplify_eq; done.
  - exists [0%nat; 1%nat]. split; [|reflexivity].
    constructor; [ apply bal_call0, bal_Wait | ].
    constructor; [ | constructor ].
    apply (bal_Defer 0 _ _ 1 0); [constructor|].
    apply bal_Seq0; [constructor|]. constructor. intros; constructor.
Qed.



Lemma pool_finished_balanced : balanced 0 (mkState heap_stopped pool_finished).
Proof.
  split.
  - intros [|[|c]] s H; simpl in H; simplify_eq; done.
  - exists [0%nat; 0%nat; 0%nat]. split; [|reflexivity].
    constructor; [ apply bal_call0, bal_Wait | ].
    repeat constructor.
Qed.

End claims_Wait.

Section claims_readers.
Import Spackler.

Ltac quiet n :=
  destruct n as [|[|[|n]]];
  repeat first [ progress simpl in * | progress unfold tau in *
               | case_match | progress simplify_eq ];
  done.

(** X4. [Wait], [Stopping], [SigChan] and [Stop] only read the scope: however
    far one of them has run, on whatever pointer and heap, the heap is as it
    was and no goroutine has been started; the hand-over [Stop] waits for
    changes nothing either. None of them starts the listener or registers
    for signals: that is left to [Go] and [Looper]. *)
Theorem readers_change_nothing b n h c h' p' sp :
  (solo b n h (Wait c) = Some (h', p', sp) -> h' = h /\ sp = []) /\
  (solo b n h (Stopping c) = Some (h', p', sp) -> h' = h /\ sp = []) /\
  (solo b n h (SigChan c) = Some (h', p', sp) -> h' = h /\ sp = []) /\
  (solo b n h (Stop c) = Some (h', p', sp) -> h' = h /\ sp = []) /\
  (forall a ch v, gstep a h (Send ch v) = Some (p', h', sp) -> h' = h /\ sp = []).
Proof.
  split_and!.
  - unfold Wait. intros H. destruct c; quiet n.
  - unfold Stopping. intros H. destruct c; quiet n.
  - unfold SigChan. intros H. destruct c; quiet n.
  - unfold Stop. intros H. destruct c; quiet n.
  - intros a ch v H. simpl in H. repeat case_match; simplify_eq; done.
Qed.
End claims_readers.

Section claims_zero.
Import Spackler.

(** X5. A [Caddy] that [NewCaddy] did not make cannot be used. On the zero
    value [Go] and [Looper] panic in [c.listen()], on the nil [*sync.Once],
    before anything else is done, and [Wait] panics on the nil
    [*sync.WaitGroup]; [Stop] sends on a nil channel and blocks for good;
    [Stopping] and [SigChan] hand out nil channels, on which a receive is
    never ready. The heap stays as it is. *)
Theorem zero_Caddy_is_unusable b h c f interval ri g :
  caddies h !! c = Some zeroCaddy ->
  solo b 4 h (Go (addr c) f) = Some (h, Panic, []) /\
  solo b 4 h (Looper (addr c) interval ri g) = Some (h, Panic, []) /\
  solo b 2 h (Wait (addr c)) = Some (h, Panic, []) /\
  (solo b 1 h (Stop (addr c)) = Some (h, Send nil SIGINT, []) /\
   forall a, gstep a h (Send nil SIGINT) = None) /\
  (solo b 1 h (Stopping (addr c)) = Some (h, Return (VRef nil), []) /\
   forall a, gstep a h (Recv nil) = None) /\
  solo b 1 h (SigChan (addr c)) = Some (h, Return (VRef nil), []).
Proof.
  intros Hc. split_and!.
  - unfold Go, listen. go.
  - unfold Looper, listen. go.
  - unfold Wait. go.
  - unfold Stop. go.
  - done.
  - unfold Stopping. go.
  - by intros [].
  - unfold SigChan. go.
Qed.

Lemma zero_Caddy_is_unusable_witness :
  caddies heap_zero !! 0%nat = Some zeroCaddy /\
  solo true 4 heap_zero (Go (addr 0) (fun _ => Skip)) = Some (heap_zero, Panic, []) /\
  solo true 2 heap_zero (Wait (addr 0)) = Some (heap_zero, Panic, []).
Proof.
  split; [reflexivity|].
  destruct (zero_Caddy_is_unusable true heap_zero 0 (fun _ => Skip) 0 false Skip)
    as (H1 & _ & H2 & _); [reflexivity|].
  split; [exact H1 | exact H2].
Defined.
End claims_zero.

Section stopping.
Import Spackler.

(** X6. [Stopping] hands out the stop channel and changes nothing. Before
    the broadcast a [select] on it with a [default] takes the [default] and
    a plain receive blocks. Once the channel is closed, it is seen closed
    through the scope at every later time, along every run of every pool:
    the [select] takes the stop case and a receive completes, without
    using anything up, so any number of readers see the broadcast. *)
Theorem Stopping_reports_the_broadcast b h c w P D :
  view_of h c = Some w ->
  solo b 1 h (Stopping (addr c)) =
    Some (h, Return (VRef (addr (v_stop w))), []) /\
  (v_stopped w = false ->
     solo b 3 h (Call (Stopping (addr c)) (fun ch => Poll (as_ref ch) P D)) =
       Some (h, D, []) /\
     gstep (ATau b) h (Recv (addr (v_stop w))) = None) /\
  (v_stopped w = true ->
   forall ls pl s',
     run ls (mkState h pl) = Some s' ->
     solo b 3 (hp s') (Call (Stopping (addr c)) (fun ch => Poll (as_ref ch) P D)) =
       Some (hp s', P, []) /\
     gstep (ATau b) (hp s') (Recv (addr (v_stop w))) = Some (Skip, hp s', [])).
Proof.
  intros Hv. split_and!.
  - use_view Hv. unfold Stopping. go.
  - intros Hopen. use_view Hv. rewrite Hopen in Hstopc. split.
    + unfold Stopping. go.
    + by sim.
  - intros Hcl ls pl s' Hr.
    destruct (view_of_grows _ _ _ _ Hv (run_grows _ _ _ Hr))
      as (w' & Hv' & Hcad & (_ & _ & Hst' & _) & _ & Hcl' & _).
    specialize (Hcl' Hcl). simpl in Hv'.
    use_view Hv'. rewrite Hcl', Hst' in Hstopc.
    pose proof (chan_take_plain _ _ _ Hstopc) as Hk.
    rewrite Hst' in Hst.
    split.
    + unfold Stopping. eapply solo_eq; [ go | exact Hk | reflexivity ].
    + sim. f_equal. f_equal. f_equal. exact Hk.
Qed.

Lemma Stopping_reports_the_broadcast_witness :
  view_of heap_stopped 1 = Some view_stopped_task /\
  solo true 3 heap_stopped
    (Call (Stopping (addr 1)) (fun ch => Poll (as_ref ch) (Return VVoid) Skip)) =
    Some (heap_stopped, Return VVoid, []).
Proof.
  split; [reflexivity|].
  destruct (Stopping_reports_the_broadcast true heap_stopped 1 view_stopped_task
              (Return VVoid) Skip) as (_ & _ & H); [reflexivity|].
  exact (proj1 (H eq_refl [] [] (mkState heap_stopped []) eq_refl)).
Defined.
End stopping.

Section race.
Import Spackler.
Variables (b : bool) (h : heap) (c : nat) (w : view).
Variables (pl : list proc) (i j : nat) (f : ref -> proc).
Hypothesis Hv : view_of h c = Some w.
Hypothesis Htop : isTopLevel (v_caddy w) = true.
Hypothesis Hdone : v_once w = OnceDone.
Hypothesis Hstop : v_stopped w = false.
Hypothesis Hopen : v_sigclosed w = false.
Hypothesis Hcnt : 1 <= v_count w.
Hypothesis Hne : v_stop w <> v_sig w.
Hypothesis Hij : i <> j.
Hypothesis Hi : (i < length pl)%nat.
Hypothesis Hj : pl !! j = Some (listener_waiting c w).

Lemma view_fired_heap :
  view_of (fired_heap h w) c =
    Some (mkView (v_caddy w) (v_o w) (v_wg w) (v_stop w) (v_sig w) (v_nd w)
                 (v_once w) (v_count w - 1) true (v_sigclosed w) (v_notify w)).
Proof.
  use_view Hv. unfold view_of, fired_heap.
  cbn [onces wgs chans bools caddies upd_chans upd_wgs].
  rewrite Hc, Ho, Hw, Hst, Hsg, Hn, Honce, Hnotify.
  rewrite (lookup_insert_hit _ _ _ _ Hcnt0).
  rewrite (lookup_insert_hit _ _ _ _ Hstopc).
  rewrite list_lookup_insert_ne by done. by rewrite Hsigc.
Qed.

(** [Stop] has returned: the listener holds the signal and has not closed
    the stop channel yet. *)
Lemma Stop_returns_first :
  run [LTau i b; LComm i j (v_sig w); LTau i b; LTau i b]
      (mkState h (<[i:=(call (Stop (addr c)) ;; Go (addr c) f)%P]> pl)) =
    Some (mkState h (<[j:=listener_fired c w]> (<[i:=Go (addr c) f]> pl))).
Proof.
  use_view Hv. rewrite Hopen in Hsigc.
  eapply run_cons.
  { eapply step_tau; [ by apply list_lookup_insert_eq | ]. unfold Stop. sim. reflexivity. }
  rewrite app_nil_r, list_insert_insert_eq.
  eapply run_cons.
  { eapply step_comm; [ done | by apply list_lookup_insert_eq
                      | by rewrite list_lookup_insert_ne | | apply listener_takes ].
    sim. rewrite Nat.eqb_refl. reflexivity. }
  rewrite list_insert_insert_eq.
  eapply run_cons.
  { eapply step_tau.
    - rewrite list_lookup_insert_ne by done. by apply list_lookup_insert_eq.
    - sim. reflexivity. }
  rewrite app_nil_r, list_insert_insert_ne, list_insert_insert_eq by done.
  eapply run_cons.
  { eapply step_tau.
    - rewrite list_lookup_insert_ne by done. by apply list_lookup_insert_eq.
    - sim. reflexivity. }
  rewrite app_nil_r, list_insert_insert_ne, list_insert_insert_eq by done.
  reflexivity.
Qed.

Lemma Go_wins :
  exists ls,
    run ls (mkState h (<[i:=(call (Stop (addr c)) ;; Go (addr c) f)%P]> pl)) =
      Some (mkState (launch_heap h w [minted (v_caddy w)])
              (<[j:=listener_fired c w]> (<[i:=Return (VErr None)]> pl) ++
               [tracked (addr c) f (addr (length (caddies h)))])).
Proof.
  destruct (Go_solo_root b h c w Hv ltac:(congruence) ltac:(lia) f Htop Hstop)
    as [n Hn].
  unfold listen_pool in Hn. rewrite Hdone in Hn. cbn [app] in Hn.
  exists ([LTau i b; LComm i j (v_sig w); LTau i b; LTau i b] ++
          replicate n (LTau i b)).
  eapply run_app; [ apply Stop_returns_first | ].
  erewrite run_solo; [ | exact Hn | ].
  - rewrite (list_insert_insert_ne _ i j) by done.
    by rewrite list_insert_insert_eq.
  - rewrite list_lookup_insert_ne by done. by apply list_lookup_insert_eq.
Qed.

Lemma listener_wins :
  exists ls,
    run ls (mkState h (<[i:=(call (Stop (addr c)) ;; Go (addr c) f)%P]> pl)) =
      Some (mkState (fired_heap h w)
              (<[j:=Return VVoid]> (<[i:=Return (VErr (Some ErrStopping))]> pl))).
Proof.
  destruct (listener_fires b h c w Hv Hstop Hcnt) as [n Hn].
  destruct (Go_solo_refused b (fired_heap h w) c _ view_fired_heap
              ltac:(simpl; congruence) ltac:(simpl; lia) f Htop eq_refl)
    as [m Hm].
  unfold listen_heap, listen_pool in Hm. cbn [v_once] in Hm. rewrite Hdone in Hm.
  exists ([LTau i b; LComm i j (v_sig w); LTau i b; LTau i b] ++
          replicate n (LTau j b) ++ replicate m (LTau i b)).
  eapply run_app; [ apply Stop_returns_first | ].
  eapply run_app.
  - eapply run_solo; [ exact Hn | ].
    apply list_lookup_insert_eq. rewrite length_insert. eauto using lookup_lt_Some.
  - rewrite app_nil_r, list_insert_insert_eq.
    erewrite run_solo; [ | exact Hm | ].
    + rewrite app_nil_r. rewrite (list_insert_insert_ne _ i j) by done.
      by rewrite list_insert_insert_eq.
    + rewrite list_lookup_insert_ne by done. by apply list_lookup_insert_eq.
Qed.
End race.

Section claims_race.
Import Spackler.

(** X7. That [Stop] has returned does not mean that the broadcast has
    fired: [Stop] returns when the listener has taken the signal, and the
    listener closes the stop channel in a later step of its own. The answer
    of a [Go] on the root scope called right after [Stop] is therefore up
    to the scheduler. If [Go] runs first it finds the stop channel open,
    returns nil and starts the task; if the listener runs first, [Go]
    returns [ErrStopping] and starts nothing. *)
Theorem Go_right_after_Stop_may_still_be_accepted h c w pl i j f :
  view_of h c = Some w -> isTopLevel (v_caddy w) = true ->
  v_once w = OnceDone -> v_stopped w = false -> v_sigclosed w = false ->
  1 <= v_count w -> v_stop w <> v_sig w ->
  i <> j -> (i < length pl)%nat -> pl !! j = Some (listener_waiting c w) ->
  (exists ls s,
     run ls (mkState h (<[i:=(call (Stop (addr c)) ;; Go (addr c) f)%P]> pl)) =
       Some s /\
     pool s !! i = Some (Return (VErr None)) /\
     pool s !! j = Some (listener_fired c w) /\
     pool s !! length pl =
       Some (tracked (addr c) f (addr (length (caddies h)))) /\
     chans (hp s) !! v_stop w = Some (Unbuffered false)) /\
  (exists ls s,
     run ls (mkState h (<[i:=(call (Stop (addr c)) ;; Go (addr c) f)%P]> pl)) =
       Some s /\
     pool s !! i = Some (Return (VErr (Some ErrStopping))) /\
     pool s !! j = Some (Return VVoid) /\
     length (pool s) = length pl /\
     chans (hp s) !! v_stop w = Some (Unbuffered true)).
Proof.
  intros Hv Htop Hdone Hstop Hopen Hcnt Hne Hij Hi Hj.
  pose proof (lookup_lt_Some _ _ _ Hj) as Hjl.
  split.
  - destruct (Go_wins true h c w pl i j f) as [ls Hls]; try done.
    eexists ls, _. split; [exact Hls|]. cbn [pool hp]. use_view Hv. split_and!.
    + apply lookup_app_l_Some. rewrite list_lookup_insert_ne by done.
      by apply list_lookup_insert_eq.
    + apply lookup_app_l_Some, list_lookup_insert_eq. by rewrite length_insert.
    + rewrite lookup_app_r by (by rewrite !length_insert).
      by rewrite !length_insert, Nat.sub_diag.
    + unfold launch_heap, listen_heap. rewrite Hdone. simpl.
      by rewrite <- Hstop.
  - destruct (listener_wins true h c w pl i j f) as [ls Hls]; try done.
    eexists ls, _. split; [exact Hls|]. cbn [pool hp]. use_view Hv. split_and!.
    + rewrite list_lookup_insert_ne by done. by apply list_lookup_insert_eq.
    + apply list_lookup_insert_eq. by rewrite length_insert.
    + by rewrite !length_insert.
    + unfold fired_heap. simpl. eauto using lookup_insert_hit.
Qed.

Lemma Go_right_after_Stop_may_still_be_accepted_witness :
  exists ls s,
    run ls (mkState heap_running
              [(call (Stop (addr 0)) ;; Go (addr 0) (fun _ => Skip))%P;
               listener_waiting 0 view_running_root]) = Some s /\
    pool s !! 0%nat = Some (Return (VErr None)) /\
    pool s !! 1%nat = Some (listener_fired 0 view_running_root).
Proof.
  destruct (Go_right_after_Stop_may_still_be_accepted heap_running 0
              view_running_root [Skip; listener_waiting 0 view_running_root]
              0%nat 1%nat (fun _ => Skip))
    as [(ls & s & H1 & H2 & H3 & _) _];
    [ reflexivity | reflexivity | reflexivity | reflexivity | reflexivity
    | simpl; lia | discriminate | discriminate | simpl; lia | reflexivity | ].
  exists ls, s. split_and!; assumption.
Defined.
End claims_race.

Section looper_views.
Variables (h : heap) (c : nat) (w : view).
Hypothesis Hv : view_of h c = Some w.

Lemma view_listen_heap : view_of (listen_heap h w) c = Some (listened w).
Proof.
  use_view Hv. unfold view_of, listen_heap, listened, listen_count.
  destruct (v_once w) eqn:E; cbn [onces wgs chans bools caddies];
    rewrite Hc, Ho, Hw, Hst, Hsg, Hn, ?Hstopc, ?Hsigc, ?Hnotify.
  - rewrite (lookup_insert_hit _ _ _ _ Honce), (lookup_insert_hit _ _ _ _ Hcnt).
    reflexivity.
  - by rewrite Honce, Hcnt.
  - by rewrite Honce, Hcnt.
Qed.

Lemma looper_heap_chans interval :
  chans (looper_heap h w interval) =
    chans h ++ [if 0 =? interval then Unbuffered true else TickerC false].
Proof. unfold looper_heap. cbn [chans upd_chans]. by rewrite listen_heap_chans. Qed.

Lemma view_app_chan h0 w0 x :
  view_of h0 c = Some w0 ->
  view_of (upd_chans (fun l => l ++ [x]) h0) c = Some w0.
Proof.
  clear Hv. intros Hv0. use_view Hv0. unfold view_of.
  cbn [onces wgs chans bools caddies upd_chans].
  rewrite Hc, Ho, Hw, Hst, Hsg, Hn, Honce, Hcnt, Hnotify.
  rewrite (lookup_app_l_Some _ _ _ _ Hstopc), (lookup_app_l_Some _ _ _ _ Hsigc).
  by destruct w0.
Qed.

Lemma view_looper_heap interval :
  view_of (looper_heap h w interval) c = Some (listened w).
Proof. unfold looper_heap. apply view_app_chan, view_listen_heap. Qed.

Lemma view_ticked h0 w0 t :
  view_of h0 c = Some w0 -> t <> v_stop w0 -> t <> v_sig w0 ->
  view_of (ticked h0 t) c = Some w0.
Proof.
  clear Hv. intros Hv0 H1 H2. use_view Hv0. unfold view_of, ticked.
  cbn [onces wgs chans bools caddies upd_chans].
  rewrite Hc, Ho, Hw, Hst, Hsg, Hn, Honce, Hcnt, Hnotify.
  rewrite !list_lookup_insert_ne by done. rewrite Hstopc, Hsigc.
  by destruct w0.
Qed.
End looper_views.

Lemma alter_take_idle (l : list chan) a :
  l !! a = Some (TickerC false) -> alter take a l = l.
Proof.
  intros H1. apply list_eq. intros i.
  destruct (decide (i = a)) as [->|Hne].
  - by rewrite list_lookup_alter_eq, H1.
  - by rewrite list_lookup_alter_ne.
Qed.

Lemma chan_take_idle h a :
  chans h !! a = Some (TickerC false) -> chan_take h (addr a) = h.
Proof.
  intros H. unfold chan_take, upd_chans.
  rewrite (alter_take_idle _ _ H). by destruct h.
Qed.

Lemma chan_take_ticked h a :
  chans h !! a = Some (TickerC false) -> chan_take (ticked h a) (addr a) = h.
Proof.
  intros H. unfold chan_take, ticked, upd_chans. cbn [chans onces wgs bools caddies notified].
  destruct h as [on wg0 ch bo ca no]. simpl in *. f_equal.
  apply list_eq. intros i. destruct (decide (i = a)) as [->|Hne].
  - rewrite list_lookup_alter_eq, (lookup_insert_hit _ _ _ _ H). by rewrite H.
  - rewrite list_lookup_alter_ne, list_lookup_insert_ne by done. done.
Qed.

Section looper_whole.
Import Spackler.
Variables (b : bool) (h : heap) (c : nat) (w : view).
Hypothesis Hv : view_of h c = Some w.

Lemma looper_heap_tick_chan interval :
  chans (looper_heap h w interval) !! length (chans h) =
    Some (if 0 =? interval then Unbuffered true else TickerC false).
Proof.
  clear Hv. rewrite looper_heap_chans.
  apply (list_lookup_middle (chans h) [] _ _ eq_refl).
Qed.

(** In the heap [Looper] has set up, with the stop channel closed, the loop
    returns and leaves the heap as it is. *)
Lemma loop_returns_in_looper_heap interval f :
  0 <= interval -> v_stopped w = true ->
  exists n,
    solo b n (looper_heap h w interval)
      (looper_loop (addr c) (addr (length (chans h))) f) =
      Some (looper_heap h w interval, Return VVoid, []).
Proof.
  intros Hi Hstop.
  pose proof (view_looper_heap h c w Hv interval) as Hv1.
  destruct (loop_returns_on_stop b _ c _ Hv1 (addr (length (chans h))) f Hstop)
    as (n & h' & Hn & Hh).
  exists n. eapply solo_eq; [ exact Hn | | reflexivity ].
  destruct Hh as [->| ->]; [done|].
  pose proof (looper_heap_tick_chan interval) as Ht.
  destruct (0 =? interval) eqn:E.
  - by apply chan_take_plain with true.
  - by apply chan_take_idle.
Qed.
End looper_whole.

Section claims_Looper_whole.
Import Spackler.



(** X9. Without [runImmediately], on a scope whose stop channel is closed,
    [Looper] returns without a call of [f], for every interval that is not
    negative: it starts the listener if need be, makes its tick channel,
    enters the loop and leaves it at once. The end is the same for every
    [f]. *)
Theorem Looper_returns_at_once_when_stopped b h c w interval f :
  view_of h c = Some w -> v_once w <> OnceRunning -> 0 <= v_count w ->
  0 <= interval -> v_stopped w = true ->
  exists n, solo b n h (Looper (addr c) interval false f) =
    Some (looper_heap h w interval, Return VVoid, listen_pool c w).
Proof.
  intros Hv Hrun Hpos Hi Hstop.
  assert (exists n, solo b n h (Looper (addr c) interval false f) =
    Some (looper_heap h w interval,
          (Skip ;; looper_loop (addr c) (addr (length (chans h))) f)%P,
          listen_pool c w)) as [n Hn].
  { destruct (decide (interval = 0)) as [->|Hne].
    - apply (Looper_solo_zero b h c w Hv Hrun Hpos false f).
    - apply (Looper_solo_positive b h c w Hv Hrun Hpos interval false f). lia. }
  destruct (loop_returns_in_looper_heap b h c w Hv interval f Hi Hstop) as [m Hm].
  exists (n + (1 + m))%nat.
  eapply solo_eq;
    [ eapply solo_app;
        [ exact Hn | eapply (solo_app b 1 m); [ reflexivity | exact Hm ] ]
    | reflexivity | by rewrite app_nil_r ].
Qed.

Lemma Looper_returns_at_once_when_stopped_witness :
  exists n, solo true n heap_stopped (Looper (addr 1) 5 false Panic) =
    Some (looper_heap heap_stopped view_stopped_task 5, Return VVoid, []).
Proof.
  apply (Looper_returns_at_once_when_stopped true heap_stopped 1
           view_stopped_task 5 Panic);
    [ reflexivity | discriminate | simpl; lia | lia | reflexivity ].
Defined.

(** X10. With a zero interval [Looper] loops on a channel it has closed
    itself. That channel stays ready along every run of every pool, so at
    any later time, as long as the stop channel is open, a pass of the loop
    goes from its head to the call of [f] without waiting for anything and
    without a change to the heap. *)
Theorem Looper_zero_interval_never_waits b h c w ri f :
  view_of h c = Some w -> v_once w <> OnceRunning -> 0 <= v_count w ->
  (exists n, solo b n h (Looper (addr c) 0 ri f) =
     Some (looper_heap h w 0,
           ((if ri then call f else Skip) ;;
            looper_loop (addr c) (addr (length (chans h))) f)%P,
           listen_pool c w)) /\
  (forall ls pl s' w',
     run ls (mkState (looper_heap h w 0) pl) = Some s' ->
     view_of (hp s') c = Some w' -> v_stopped w' = false ->
     chan_ready (hp s') (addr (length (chans h))) = true /\
     solo b 5 (hp s') (looper_loop (addr c) (addr (length (chans h))) f) =
       Some (hp s', looper_gate c (addr (length (chans h))) f, [])).
Proof.
  intros Hv Hrun Hpos. split.
  - apply (Looper_solo_zero b h c w Hv Hrun Hpos ri f).
  - intros ls pl s' w' Hr Hv' Hopen.
    pose proof (looper_heap_tick_chan h w 0) as Ht. cbn [Z.eqb] in Ht.
    apply (run_stays_closed _ _ _ Hr) in Ht. cbn [hp] in Ht.
    pose proof (chan_take_plain _ _ _ Ht) as Hk.
    assert (chan_ready (hp s') (addr (length (chans h))) = true) as Hready
      by (cbn [chan_ready]; by rewrite Ht).
    split; [ exact Hready | ].
    eapply solo_eq;
      [ eapply (solo_app b 4 1);
          [ by apply (loop_takes_tick b _ c w' Hv')
          | rewrite Hk; eapply solo_cons;
              [ by apply (poll_lets_through b _ c w' Hv')
              | apply solo_nil | reflexivity ] ]
      | reflexivity | reflexivity ].
Qed.

Lemma Looper_zero_interval_never_waits_witness :
  view_of heap_running 1 =
    Some (mkView (mkCaddy (addr 0) (addr 0) (addr 0) (addr 1) (addr 0) false)
            0 0 0 1 0 OnceDone 1 false false false) /\
  solo true 5 (looper_heap heap_running view_running_root 0)
    (looper_loop (addr 1) (addr 2) Skip) =
    Some (looper_heap heap_running view_running_root 0,
          looper_gate 1 (addr 2) Skip, []).
Proof.
  split; [reflexivity|].
  destruct (Looper_zero_interval_never_waits true heap_running 1
              (mkView (mkCaddy (addr 0) (addr 0) (addr 0) (addr 1) (addr 0) false)
                 0 0 0 1 0 OnceDone 1 false false false) false Skip)
    as [_ H]; [ reflexivity | discriminate | simpl; lia | ].
  exact (proj2 (H [] [] (mkState (looper_heap heap_running view_running_root 0) [])
                  _ eq_refl eq_refl eq_refl)).
Defined.

(** X11. With a positive interval [Looper] loops on the channel of a new
    ticker, which holds no tick at first: while the stop channel is open
    the loop is blocked in its [select] until the runtime delivers a tick.
    A tick that arrives while one is pending is dropped. From a pending
    tick a pass of the loop gets to the call of [f] and has used the tick
    up: the heap is the one in which the loop blocks. *)
Theorem Looper_positive_interval_runs_on_ticks b h c w interval ri f pl :
  view_of h c = Some w -> v_once w <> OnceRunning -> 0 <= v_count w ->
  0 < interval -> v_stopped w = false ->
  (exists n, solo b n h (Looper (addr c) interval ri f) =
     Some (looper_heap h w interval,
           ((if ri then call f else Skip) ;;
            looper_loop (addr c) (addr (length (chans h))) f)%P,
           listen_pool c w)) /\
  (solo b 2 (looper_heap h w interval)
     (looper_loop (addr c) (addr (length (chans h))) f) =
     Some (looper_heap h w interval,
           looper_at_select c (v_stop w) (addr (length (chans h))) f, []) /\
   gstep (ATau b) (looper_heap h w interval)
     (looper_at_select c (v_stop w) (addr (length (chans h))) f) = None) /\
  (step (LTick (length (chans h))) (mkState (looper_heap h w interval) pl) =
     Some (mkState (ticked (looper_heap h w interval) (length (chans h))) pl) /\
   step (LTick (length (chans h)))
     (mkState (ticked (looper_heap h w interval) (length (chans h))) pl) =
     Some (mkState (ticked (looper_heap h w interval) (length (chans h))) pl)) /\
  solo b 5 (ticked (looper_heap h w interval) (length (chans h)))
    (looper_loop (addr c) (addr (length (chans h))) f) =
    Some (looper_heap h w interval,
          looper_gate c (addr (length (chans h))) f, []).
Proof.
  intros Hv Hrun Hpos Hi Hopen.
  pose proof (view_looper_heap h c w Hv interval) as Hv1.
  pose proof (looper_heap_tick_chan h w interval) as Ht.
  assert ((0 =? interval) = false) as Hz by lia. rewrite Hz in Ht.
  split_and!.
  - by apply (Looper_solo_positive b h c w Hv Hrun Hpos interval ri f).
  - apply (loop_waits b _ c _ Hv1); [done|]. cbn [chan_ready]. by rewrite Ht.
  - apply (loop_waits b _ c _ Hv1); [done|]. cbn [chan_ready]. by rewrite Ht.
  - cbn [step hp pool]. by rewrite Ht.
  - cbn [step hp pool]. unfold ticked at 1. cbn [chans upd_chans].
    rewrite (lookup_insert_hit _ _ _ _ Ht). unfold ticked.
    unfold upd_chans. cbn [onces wgs chans bools caddies notified].
    by rewrite list_insert_insert_eq.
  - pose proof (chan_take_ticked _ _ Ht) as Hk.
    assert (view_of (ticked (looper_heap h w interval) (length (chans h))) c =
            Some (listened w)) as Hv2.
    { use_view Hv. apply lookup_lt_Some in Hstopc, Hsigc.
      apply view_ticked; [done | simpl; lia | simpl; lia]. }
    assert (chan_ready (ticked (looper_heap h w interval) (length (chans h)))
              (addr (length (chans h))) = true) as Hready.
    { unfold ticked. cbn [chan_ready chans upd_chans].
      by rewrite (lookup_insert_hit _ _ _ _ Ht). }
    eapply solo_eq;
      [ eapply (solo_app b 4 1);
          [ by apply (loop_takes_tick b _ c _ Hv2)
          | rewrite Hk; eapply solo_cons;
              [ by apply (poll_lets_through b _ c _ Hv1)
              | apply solo_nil | reflexivity ] ]
      | reflexivity | reflexivity ].
Qed.

Lemma Looper_positive_interval_runs_on_ticks_witness :
  solo true 5 (ticked (looper_heap heap_running view_running_root 7) 2)
    (looper_loop (addr 0) (addr 2) Skip) =
    Some (looper_heap heap_running view_running_root 7,
          looper_gate 0 (addr 2) Skip, []).
Proof.
  destruct (Looper_positive_interval_runs_on_ticks true heap_running 0
              view_running_root 7 false Skip [])
    as (_ & _ & _ & H);
    [ reflexivity | discriminate | simpl; lia | lia | reflexivity | ].
  exact H.
Defined.
End claims_Looper_whole.

Section later.
Import Spackler.


End later.

Section frames.
Variables (h : heap) (c : nat) (w : view) (c2 : nat) (w2 : view).
Hypothesis Hv : view_of h c = Some w.
Hypothesis Hv2 : view_of h c2 = Some w2.
Hypothesis Hap : apart w w2.

Lemma listen_heap_frame : view_of (listen_heap h w) c2 = Some w2.
Proof.
  destruct Hap as (? & ? & ? & ? & ? & ?).
  use_view Hv2. unfold view_of, listen_heap.
  destruct (v_once w); cbn [onces wgs chans bools caddies];
    rewrite Hc, Ho, Hw, Hst, Hsg, Hn, ?Hstopc, ?Hsigc, ?Hnotify;
    rewrite ?list_lookup_insert_ne by done; rewrite Honce, Hcnt;
    by destruct w2.
Qed.

Lemma launch_heap_frame new : view_of (launch_heap h w new) c2 = Some w2.
Proof.
  pose proof listen_heap_frame as Hl.
  destruct Hap as (? & ? & ? & ? & ? & ?).
  use_view Hl. unfold view_of, launch_heap.
  cbn [onces wgs chans bools caddies upd_wgs upd_caddies].
  rewrite (lookup_app_l_Some _ _ _ _ Hc), Ho, Hw, Hst, Hsg, Hn.
  rewrite list_lookup_insert_ne by done.
  rewrite Honce, Hcnt, Hstopc, Hsigc, Hnotify. by destruct w2.
Qed.

Lemma fired_heap_frame : view_of (fired_heap h w) c2 = Some w2.
Proof.
  destruct Hap as (? & ? & ? & ? & ? & ?).
  use_view Hv2. unfold view_of, fired_heap.
  cbn [onces wgs chans bools caddies upd_wgs upd_chans].
  rewrite Hc, Ho, Hw, Hst, Hsg, Hn.
  rewrite !list_lookup_insert_ne by done.
  rewrite Honce, Hcnt, Hstopc, Hsigc, Hnotify. by destruct w2.
Qed.
End frames.

Section claims_frames.
Import Spackler.

(** X13. Coordinators do not interfere. Let two scopes share no
    [sync.Once], wait group or channel, as a scope of a new coordinator and
    any older scope do. Then what [Go] does on the first, whatever its
    answer, and the broadcast of the first one's listener leave the second
    as it was: its [sync.Once], its counter and its two channels are
    untouched, so it is not stopped by the stop of the first. *)
Theorem coordinators_do_not_interfere b h c w c2 w2 f :
  view_of h c = Some w -> view_of h c2 = Some w2 -> apart w w2 ->
  v_once w <> OnceRunning -> 0 <= v_count w ->
  (exists n h' r sp,
     solo b n h (Go (addr c) f) = Some (h', Return r, sp) /\
     view_of h' c2 = Some w2) /\
  (v_stopped w = false -> 1 <= v_count w ->
   exists n,
     solo b n h (listener_fired c w) = Some (fired_heap h w, Return VVoid, []) /\
     view_of (fired_heap h w) c2 = Some w2).
Proof.
  intros Hv Hv2 Hap Hrun Hpos. split.
  - destruct (isTopLevel (v_caddy w)) eqn:Htop; [destruct (v_stopped w) eqn:Hstop|].
    + destruct (Go_solo_refused b h c w Hv Hrun Hpos f Htop Hstop) as [n Hn].
      eexists n, _, _, _. split; [exact Hn|]. by apply listen_heap_frame.
    + destruct (Go_solo_root b h c w Hv Hrun Hpos f Htop Hstop) as [n Hn].
      eexists n, _, _, _. split; [exact Hn|]. by apply launch_heap_frame.
    + destruct (Go_solo_tracked b h c w Hv Hrun Hpos f Htop) as [n Hn].
      eexists n, _, _, _. split; [exact Hn|]. by apply launch_heap_frame.
  - intros Hstop Hcnt.
    destruct (listener_fires b h c w Hv Hstop Hcnt) as [n Hn].
    exists n. split; [exact Hn|]. by apply fired_heap_frame.
Qed.

Lemma coordinators_do_not_interfere_witness :
  (view_of heap_two 0 = Some view_two_first /\
   view_of heap_two 1 = Some view_two_second) /\
  exists n,
    solo true n heap_two (listener_fired 0 view_two_first) =
      Some (fired_heap heap_two view_two_first, Return VVoid, []) /\
    view_of (fired_heap heap_two view_two_first) 1 = Some view_two_second.
Proof.
  split; [split; reflexivity|].
  destruct (coordinators_do_not_interfere true heap_two 0 view_two_first 1
              view_two_second (fun _ => Skip)) as [_ H];
    [ reflexivity | reflexivity
    | unfold apart; simpl; split_and!; discriminate
    | discriminate | simpl; lia | ].
  apply H; [ reflexivity | simpl; lia ].
Defined.
End claims_frames.

Section claims_Looper_edges.
Import Spackler.

(** X14. With a negative interval [Looper] panics, for every [f] and
    either value of [runImmediately]: after [c.listen()], which starts the
    listener and counts it if that was still to be done, [time.NewTicker]
    panics. [f] is not called, the loop is not entered, and nothing is left
    to run in [Looper]. *)
Theorem Looper_negative_interval_panics b h c w interval ri f :
  view_of h c = Some w -> v_once w <> OnceRunning -> 0 <= v_count w ->
  interval < 0 ->
  (exists n, solo b n h (Looper (addr c) interval ri f) =
     Some (listen_heap h w, Panic, listen_pool c w)) /\
  (forall a h', gstep a h' Panic = None) /\
  (v_once w = OnceFresh ->
   listen_pool c w = [listener (addr c)] /\
   wgs (listen_heap h w) !! v_wg w = Some (v_count w + 1)).
Proof.
  intros Hv Hrun Hpos Hi. split_and!.
  - by apply Looper_solo_negative.
  - done.
  - intros Hf. unfold listen_pool. rewrite Hf. split; [done|].
    rewrite (listen_heap_count h c w Hv). unfold listen_count. by rewrite Hf.
Qed.

Lemma Looper_negative_interval_panics_witness :
  exists n, solo true n heap_new (Looper (addr 0) (-5) false Skip) =
    Some (listen_heap heap_new view_new, Panic, [listener (addr 0)]).
Proof.
  destruct (Looper_negative_interval_panics true heap_new 0 view_new (-5) false Skip)
    as [H _]; [ reflexivity | discriminate | simpl; lia | lia | ].
  exact H.
Defined.

(** X15. [Looper]'s loop starts no goroutine and writes nothing of its
    own: a step of a goroutine in the loop, at the gate included, either is
    a step of [f], with whatever [f] does, or starts nothing and leaves the
    heap as it is but for the tick or value it takes from the channel it
    receives on. *)
Theorem Looper_loop_starts_nothing c nst t f a h p p' h' sp :
  in_loop c nst t f p \/ p = looper_gate c t f ->
  gstep a h p = Some (p', h', sp) ->
  (exists x x', p = (Call x (fun _ => Skip) ;; looper_loop (addr c) t f)%P /\
                done_of x = None /\ gstep a h x = Some (x', h', sp)) \/
  (sp = [] /\ (h' = h \/ h' = chan_take h t \/ h' = chan_take h (addr nst))).
Proof.
  intros [Hin| ->] Hs.
  - destruct Hin; unfold looper_loop, looper_body, looper_tick, call in *;
      cbn [gstep done_of] in Hs; unfold tau in Hs.
    all: try (destruct a; simplify_eq; right; eauto; fail).
    all: try (repeat case_match; simplify_eq; right; eauto; fail).
    destruct (done_of x) as [[]|] eqn:Hx.
    + destruct a; simplify_eq; right; eauto.
    + destruct a; simplify_eq; right; eauto.
    + destruct a; simplify_eq; right; eauto.
    + destruct (gstep a h x) as [[[x' h1] sp1]|] eqn:E; simplify_eq.
      left. eauto.
  - unfold looper_gate, call in Hs. cbn [gstep done_of] in Hs. unfold tau in Hs.
    destruct a; simplify_eq. right. eauto.
Qed.

Lemma Looper_loop_starts_nothing_witness :
  gstep (ATau true) heap_looping_stopped
    (looper_at_select 1 0 (addr 2) (GoStmt Skip)) =
    Some ((looper_tick (addr 1) (GoStmt Skip) ;;
           looper_loop (addr 1) (addr 2) (GoStmt Skip))%P,
          heap_looping_stopped, []) /\
  ((exists x x',
      looper_at_select 1 0 (addr 2) (GoStmt Skip) =
        (Call x (fun _ => Skip) ;; looper_loop (addr 1) (addr 2) (GoStmt Skip))%P /\
      done_of x = None /\
      gstep (ATau true) heap_looping_stopped x = Some (x', heap_looping_stopped, [])) \/
   ([] = [] :> list proc) /\
   (heap_looping_stopped = heap_looping_stopped \/
    heap_looping_stopped = chan_take heap_looping_stopped (addr 2) \/
    heap_looping_stopped = chan_take heap_looping_stopped (addr 0))).
Proof.
  split; [reflexivity|].
  apply (Looper_loop_starts_nothing 1 0 (addr 2) (GoStmt Skip) (ATau true)
           heap_looping_stopped (looper_at_select 1 0 (addr 2) (GoStmt Skip))
           (looper_tick (addr 1) (GoStmt Skip) ;;
            looper_loop (addr 1) (addr 2) (GoStmt Skip))%P
           heap_looping_stopped []).
  - left. constructor.
  - reflexivity.
Defined.
End claims_Looper_edges.
